(** * xpano command-line front end (src/xpano/cli/args.cc, args.h)

    A shallow embedding of the argument parser of xpano: the typed value
    parsers, the enum resolvers, the token dispatcher [ParseArg], the
    directory expander, the validator and the driver [ParseArgs], together
    with the properties of the specification that concern them.

    What the translation unit takes from elsewhere is a parameter of the
    model: the numeric bounds of xpano/constants.h, the extension test of
    xpano/utils/path.h, the C++ [float] type with [std::stof] and its
    comparison, the ordering of [std::filesystem::path] and the file
    system itself. *)

From Stdlib Require Import String Ascii List ZArith QArith Bool Lia Permutation.
Import ListNotations.
Local Open Scope string_scope.
Local Open Scope list_scope.

Set Implicit Arguments.

(* ===================================================================== *)
(** * The C++ run time the code relies on *)
(* ===================================================================== *)

(** [std::filesystem::path]: the native string, kept as written. *)
Definition path : Type := string.

(** A thrown [std::exception]; [what] is its message. *)
Record exception : Type := std_exception { what : string }.

(** The result of evaluating an expression that may throw. *)
Inductive outcome (A : Type) : Type :=
| Returned (a : A)
| Thrown (e : exception).
Arguments Thrown {A} e.

(** [std::string::substr(pos)]: the characters from [pos] to the end. The
    source only calls it after [starts_with], so [pos] never exceeds the
    size (where C++ would throw); the model returns the empty string
    there. *)
Fixpoint substr (s : string) (pos : nat) {struct pos} : string :=
  match pos, s with
  | O, _ => s
  | S n, String _ t => substr t n
  | S _, EmptyString => EmptyString
  end.

(** [s.starts_with(prefix)]. *)
Definition starts_with (s prefix : string) : bool := String.prefix prefix s.

(** A string holding one double-quote character. *)
Definition dquote : string := String (ascii_of_nat 34) EmptyString.

(** ** [std::from_chars] for [int], base 10 *)

Definition INT_MIN : Z := (- 2 ^ 31)%Z.
Definition INT_MAX : Z := (2 ^ 31 - 1)%Z.

Inductive errc : Type := errc_ok | invalid_argument | result_out_of_range.

Definition errc_eqb (a b : errc) : bool :=
  match a, b with
  | errc_ok, errc_ok | invalid_argument, invalid_argument
  | result_out_of_range, result_out_of_range => true
  | _, _ => false
  end.

(** [ptr] is kept as an offset from [str.data()]. *)
Record from_chars_result : Type := { ptr : nat; ec : errc }.

Definition is_digit (c : ascii) : bool :=
  (48 <=? nat_of_ascii c)%nat && (nat_of_ascii c <=? 57)%nat.

Definition digit_value (c : ascii) : Z := (Z.of_nat (nat_of_ascii c) - 48)%Z.

(** Consumes the longest run of decimal digits at the front of [s]: the
    number of characters consumed and the number they denote, starting
    from the accumulator [acc]. *)
Fixpoint scan_digits (s : string) (acc : Z) : nat * Z :=
  match s with
  | String c t =>
      if is_digit c
      then let '(n, v) := scan_digits t (10 * acc + digit_value c)%Z in (S n, v)
      else (O, acc)
  | EmptyString => (O, acc)
  end.

(** Splits off a leading minus sign. *)
Definition strip_minus (s : string) : bool * string :=
  match s with
  | String c t => if Ascii.eqb c "-"%char then (true, t) else (false, s)
  | EmptyString => (false, s)
  end.

(** [std::from_chars(first, last, value)] on the characters of [str]: the
    pattern is an optional minus sign followed by decimal digits, with no
    leading white space and no plus sign. With no digits the result is
    [invalid_argument] at [first]; a number outside [int] gives
    [result_out_of_range] past the digits; in both cases [value] is left
    as it was. *)
Definition from_chars (str : string) (value : Z) : from_chars_result * Z :=
  let '(neg, rest) := strip_minus str in
  let '(n, magnitude) := scan_digits rest 0%Z in
  match n with
  | O => ({| ptr := 0; ec := invalid_argument |}, value)
  | S _ =>
      let v := if neg then (- magnitude)%Z else magnitude in
      let p := ((if neg then 1 else 0) + n)%nat in
      if (INT_MIN <=? v)%Z && (v <=? INT_MAX)%Z
      then ({| ptr := p; ec := errc_ok |}, v)
      else ({| ptr := p; ec := result_out_of_range |}, value)
  end.

(* ===================================================================== *)
(** * Collaborators outside the translation unit *)
(* ===================================================================== *)

(** Everything args.cc reads from headers that are not part of it. No
    law is assumed of the comparisons here; a property that needs the
    order of paths to be a strict total order says so. *)
Class Env : Type := {
  (** the C++ type [float], with [operator<] *)
  float : Type;
  float_lt : float -> float -> bool;
  (** [std::stof(str, &pos)]: the value and the number of characters
      processed, or the [std::invalid_argument] / [std::out_of_range]
      it throws *)
  stof : string -> outcome (float * nat);
  (** [operator<] of [std::filesystem::path], the order [std::sort] uses *)
  path_lt : path -> path -> bool;
  (** [path::extension().string()] *)
  extension : path -> string;
  (** xpano/constants.h *)
  kMinMatchThreshold : Z;
  kMaxMatchThreshold : Z;
  kMinShiftInPano : float;
  kMaxShiftInPano : float;
  kMaxJpegQuality : Z;
  kMaxPngCompression : Z;
  (** xpano/utils/path.h *)
  IsExtensionSupported : path -> bool
}.

(** [std::filesystem::directory_entry]: its path and the answer of
    [is_regular_file()], which may throw. *)
Record directory_entry : Type := {
  entry_path : path;
  is_regular_file : outcome bool
}.

(** The file system as [std::filesystem] shows it: [is_directory(p)], and
    the entries a [directory_iterator(p)] walks through. Each call may
    throw a [filesystem_error]. A throw of the iterator, at its
    construction or at an increment, is the [Thrown] outcome of
    [directory_iterator]: the loop over the entries logs nothing and its
    partial result is lost with the exception, so where in the walk the
    iterator failed cannot be observed. *)
Class FileSystem : Type := {
  is_directory : path -> outcome bool;
  directory_iterator : path -> outcome (list directory_entry)
}.

(** Enumerations of xpano/algorithm/options.h and xpano/pipeline/options.h,
    with the variants args.cc names. *)
Module algorithm.
Inductive ProjectionType : Type :=
| kPerspective | kCylindrical | kSpherical | kFisheye | kStereographic
| kCompressedRectilinear | kPanini | kMercator | kTransverseMercator.
Inductive WaveCorrectionType : Type :=
| kOff | kAuto | kHorizontal | kVertical.
End algorithm.

Module pipeline.
Inductive MatchingType : Type := kAuto | kSinglePano | kNone.
End pipeline.

(* ===================================================================== *)
(** * Logging and exceptions *)
(* ===================================================================== *)

(** The channels of the spdlog sink the code writes to. *)
Inductive level : Type := info | warn | error.

(** An argument of a format string. *)
Inductive fmt_arg {env : Env} : Type :=
| arg_string (s : string)
| arg_int (z : Z)
| arg_float (f : float).

(** One call of [spdlog::info], [spdlog::warn] or [spdlog::error]: the
    format string as written in the source and the arguments that fill
    its [{}] places. *)
Record log_line {env : Env} : Type := {
  lvl : level;
  fmt : string;
  fmt_args : list fmt_arg
}.

(** A computation that appends lines to the log and either returns a
    value or throws; the lines logged before a throw are kept. *)
Definition M {env : Env} (A : Type) : Type := (outcome A * list log_line)%type.

Definition ret {env : Env} {A : Type} (a : A) : M A := (Returned a, []).

Definition bind {env : Env} {A B : Type} (m : M A) (k : A -> M B) : M B :=
  match m with
  | (Returned a, l) => let '(r, l') := k a in (r, l ++ l')
  | (Thrown e, l) => (Thrown e, l)
  end.

Notation "x <- m ;; k" := (bind m (fun x => k))
  (at level 61, m at next level, right associativity).
Notation "m ;; k" := (bind m (fun _ => k))
  (at level 61, right associativity).

(** Evaluating an expression of the run time that may throw. *)
Definition eval {env : Env} {A : Type} (o : outcome A) : M A := (o, []).

Definition spdlog {env : Env} (lv : level) (f : string) (args : list fmt_arg)
  : M unit :=
  (Returned tt, [ {| lvl := lv; fmt := f; fmt_args := args |} ]).

(** [try { m } catch (const std::exception& e)]: hands the exception, if
    any, to the code that follows. *)
Definition try_ {env : Env} {A : Type} (m : M A) : M (exception + A) :=
  match m with
  | (Returned a, l) => (Returned (inr a), l)
  | (Thrown e, l) => (Returned (inl e), l)
  end.

(* ===================================================================== *)
(** * args.h: the configuration record *)
(* ===================================================================== *)

Record Args {env : Env} : Type := {
  run_gui : bool;
  print_help : bool;
  print_version : bool;
  input_paths : list path;
  output_path : option path;
  projection : option algorithm.ProjectionType;
  matching_type : option pipeline.MatchingType;
  match_threshold : option Z;
  min_shift : option float;
  jpeg_quality : option Z;
  png_compression : option Z;
  copy_metadata : option bool;
  wave_correction : option algorithm.WaveCorrectionType;
  max_pano_mpx : option Z
}.

(** [Args result;] with the default member initialisers. *)
Definition default_Args {env : Env} : Args := {|
  run_gui := false; print_help := false; print_version := false;
  input_paths := []; output_path := None; projection := None;
  matching_type := None; match_threshold := None; min_shift := None;
  jpeg_quality := None; png_compression := None; copy_metadata := None;
  wave_correction := None; max_pano_mpx := None |}.

(** Assignments to one member. *)
Definition set_run_gui {env : Env} (a : Args) (v : bool) : Args :=
  {| run_gui := v; print_help := print_help a; print_version := print_version a;
     input_paths := input_paths a; output_path := output_path a;
     projection := projection a; matching_type := matching_type a;
     match_threshold := match_threshold a; min_shift := min_shift a;
     jpeg_quality := jpeg_quality a; png_compression := png_compression a;
     copy_metadata := copy_metadata a; wave_correction := wave_correction a;
     max_pano_mpx := max_pano_mpx a |}.

Definition set_print_help {env : Env} (a : Args) (v : bool) : Args :=
  {| run_gui := run_gui a; print_help := v; print_version := print_version a;
     input_paths := input_paths a; output_path := output_path a;
     projection := projection a; matching_type := matching_type a;
     match_threshold := match_threshold a; min_shift := min_shift a;
     jpeg_quality := jpeg_quality a; png_compression := png_compression a;
     copy_metadata := copy_metadata a; wave_correction := wave_correction a;
     max_pano_mpx := max_pano_mpx a |}.

Definition set_print_version {env : Env} (a : Args) (v : bool) : Args :=
  {| run_gui := run_gui a; print_help := print_help a; print_version := v;
     input_paths := input_paths a; output_path := output_path a;
     projection := projection a; matching_type := matching_type a;
     match_threshold := match_threshold a; min_shift := min_shift a;
     jpeg_quality := jpeg_quality a; png_compression := png_compression a;
     copy_metadata := copy_metadata a; wave_correction := wave_correction a;
     max_pano_mpx := max_pano_mpx a |}.

Definition set_input_paths {env : Env} (a : Args) (v : list path) : Args :=
  {| run_gui := run_gui a; print_help := print_help a;
     print_version := print_version a;
     input_paths := v; output_path := output_path a;
     projection := projection a; matching_type := matching_type a;
     match_threshold := match_threshold a; min_shift := min_shift a;
     jpeg_quality := jpeg_quality a; png_compression := png_compression a;
     copy_metadata := copy_metadata a; wave_correction := wave_correction a;
     max_pano_mpx := max_pano_mpx a |}.

Definition set_output_path {env : Env} (a : Args) (v : option path) : Args :=
  {| run_gui := run_gui a; print_help := print_help a;
     print_version := print_version a;
     input_paths := input_paths a; output_path := v;
     projection := projection a; matching_type := matching_type a;
     match_threshold := match_threshold a; min_shift := min_shift a;
     jpeg_quality := jpeg_quality a; png_compression := png_compression a;
     copy_metadata := copy_metadata a; wave_correction := wave_correction a;
     max_pano_mpx := max_pano_mpx a |}.

Definition set_projection {env : Env} (a : Args)
  (v : option algorithm.ProjectionType) : Args :=
  {| run_gui := run_gui a; print_help := print_help a;
     print_version := print_version a;
     input_paths := input_paths a; output_path := output_path a;
     projection := v; matching_type := matching_type a;
     match_threshold := match_threshold a; min_shift := min_shift a;
     jpeg_quality := jpeg_quality a; png_compression := png_compression a;
     copy_metadata := copy_metadata a; wave_correction := wave_correction a;
     max_pano_mpx := max_pano_mpx a |}.

Definition set_matching_type {env : Env} (a : Args)
  (v : option pipeline.MatchingType) : Args :=
  {| run_gui := run_gui a; print_help := print_help a;
     print_version := print_version a;
     input_paths := input_paths a; output_path := output_path a;
     projection := projection a; matching_type := v;
     match_threshold := match_threshold a; min_shift := min_shift a;
     jpeg_quality := jpeg_quality a; png_compression := png_compression a;
     copy_metadata := copy_metadata a; wave_correction := wave_correction a;
     max_pano_mpx := max_pano_mpx a |}.

Definition set_match_threshold {env : Env} (a : Args) (v : option Z) : Args :=
  {| run_gui := run_gui a; print_help := print_help a;
     print_version := print_version a;
     input_paths := input_paths a; output_path := output_path a;
     projection := projection a; matching_type := matching_type a;
     match_threshold := v; min_shift := min_shift a;
     jpeg_quality := jpeg_quality a; png_compression := png_compression a;
     copy_metadata := copy_metadata a; wave_correction := wave_correction a;
     max_pano_mpx := max_pano_mpx a |}.

Definition set_min_shift {env : Env} (a : Args) (v : option float) : Args :=
  {| run_gui := run_gui a; print_help := print_help a;
     print_version := print_version a;
     input_paths := input_paths a; output_path := output_path a;
     projection := projection a; matching_type := matching_type a;
     match_threshold := match_threshold a; min_shift := v;
     jpeg_quality := jpeg_quality a; png_compression := png_compression a;
     copy_metadata := copy_metadata a; wave_correction := wave_correction a;
     max_pano_mpx := max_pano_mpx a |}.

Definition set_jpeg_quality {env : Env} (a : Args) (v : option Z) : Args :=
  {| run_gui := run_gui a; print_help := print_help a;
     print_version := print_version a;
     input_paths := input_paths a; output_path := output_path a;
     projection := projection a; matching_type := matching_type a;
     match_threshold := match_threshold a; min_shift := min_shift a;
     jpeg_quality := v; png_compression := png_compression a;
     copy_metadata := copy_metadata a; wave_correction := wave_correction a;
     max_pano_mpx := max_pano_mpx a |}.

Definition set_png_compression {env : Env} (a : Args) (v : option Z) : Args :=
  {| run_gui := run_gui a; print_help := print_help a;
     print_version := print_version a;
     input_paths := input_paths a; output_path := output_path a;
     projection := projection a; matching_type := matching_type a;
     match_threshold := match_threshold a; min_shift := min_shift a;
     jpeg_quality := jpeg_quality a; png_compression := v;
     copy_metadata := copy_metadata a; wave_correction := wave_correction a;
     max_pano_mpx := max_pano_mpx a |}.

Definition set_copy_metadata {env : Env} (a : Args) (v : option bool) : Args :=
  {| run_gui := run_gui a; print_help := print_help a;
     print_version := print_version a;
     input_paths := input_paths a; output_path := output_path a;
     projection := projection a; matching_type := matching_type a;
     match_threshold := match_threshold a; min_shift := min_shift a;
     jpeg_quality := jpeg_quality a; png_compression := png_compression a;
     copy_metadata := v; wave_correction := wave_correction a;
     max_pano_mpx := max_pano_mpx a |}.

Definition set_wave_correction {env : Env} (a : Args)
  (v : option algorithm.WaveCorrectionType) : Args :=
  {| run_gui := run_gui a; print_help := print_help a;
     print_version := print_version a;
     input_paths := input_paths a; output_path := output_path a;
     projection := projection a; matching_type := matching_type a;
     match_threshold := match_threshold a; min_shift := min_shift a;
     jpeg_quality := jpeg_quality a; png_compression := png_compression a;
     copy_metadata := copy_metadata a; wave_correction := v;
     max_pano_mpx := max_pano_mpx a |}.

Definition set_max_pano_mpx {env : Env} (a : Args) (v : option Z) : Args :=
  {| run_gui := run_gui a; print_help := print_help a;
     print_version := print_version a;
     input_paths := input_paths a; output_path := output_path a;
     projection := projection a; matching_type := matching_type a;
     match_threshold := match_threshold a; min_shift := min_shift a;
     jpeg_quality := jpeg_quality a; png_compression := png_compression a;
     copy_metadata := copy_metadata a; wave_correction := wave_correction a;
     max_pano_mpx := v |}.

(* ===================================================================== *)
(** * args.cc *)
(* ===================================================================== *)

Definition kGuiFlag : string := "--gui".
Definition kOutputFlag : string := "--output=".
Definition kHelpFlag : string := "--help".
Definition kVersionFlag : string := "--version".
Definition kProjectionFlag : string := "--projection=".
Definition kMatchingTypeFlag : string := "--matching-type=".
Definition kMatchThresholdFlag : string := "--match-threshold=".
Definition kMinShiftFlag : string := "--min-shift=".
Definition kJpegQualityFlag : string := "--jpeg-quality=".
Definition kPngCompressionFlag : string := "--png-compression=".
Definition kCopyMetadataFlag : string := "--copy-metadata".
Definition kNoCopyMetadataFlag : string := "--no-copy-metadata".
Definition kWaveCorrectionFlag : string := "--wave-correction=".
Definition kMaxPanoMpxFlag : string := "--max-pano-mpx=".

(** ** Typed value parsers *)

(** [int value;] is indeterminate until [from_chars] writes it; it is read
    only after a successful conversion, so the model starts it at 0. *)
Definition ParseInt (str : string) : option Z :=
  let '(result, value) := from_chars str 0%Z in
  if errc_eqb (ec result) errc_ok && (ptr result =? String.length str)%nat
  then Some value
  else None.

Definition ParseFloat {env : Env} (str : string) : option float :=
  match stof str with
  | Returned (value, pos) =>
      if (pos =? String.length str)%nat then Some value else None
  | Thrown _ => None
  end.

(** ** Enum resolvers *)

Definition ParseProjectionType (str : string)
  : option algorithm.ProjectionType :=
  if (str =? "perspective")%string then Some algorithm.kPerspective
  else if (str =? "cylindrical")%string then Some algorithm.kCylindrical
  else if (str =? "spherical")%string then Some algorithm.kSpherical
  else if (str =? "fisheye")%string then Some algorithm.kFisheye
  else if (str =? "stereographic")%string then Some algorithm.kStereographic
  else if (str =? "rectilinear")%string
       then Some algorithm.kCompressedRectilinear
  else if (str =? "panini")%string then Some algorithm.kPanini
  else if (str =? "mercator")%string then Some algorithm.kMercator
  else if (str =? "transverse-mercator")%string
       then Some algorithm.kTransverseMercator
  else None.

Definition ParseWaveCorrectionType (str : string)
  : option algorithm.WaveCorrectionType :=
  if (str =? "off")%string then Some algorithm.kOff
  else if (str =? "auto")%string then Some algorithm.kAuto
  else if (str =? "horizontal")%string then Some algorithm.kHorizontal
  else if (str =? "vertical")%string then Some algorithm.kVertical
  else None.

Definition ParseMatchingType (str : string) : option pipeline.MatchingType :=
  if (str =? "auto")%string then Some pipeline.kAuto
  else if (str =? "single")%string then Some pipeline.kSinglePano
  else if (str =? "none")%string then Some pipeline.kNone
  else None.

(** ** Token dispatcher *)

Definition has_value {A : Type} (o : option A) : bool :=
  match o with Some _ => true | None => false end.

(** [result] is the record the pointer of the source refers to; the
    updated record is returned. *)
Definition ParseArg {env : Env} (result : Args) (arg : string) : M Args :=
  if (arg =? kGuiFlag)%string then
    ret (set_run_gui result true)
  else if (arg =? kHelpFlag)%string then
    ret (set_print_help result true)
  else if (arg =? kVersionFlag)%string then
    ret (set_print_version result true)
  else if starts_with arg kOutputFlag then
    let substr := substr arg (String.length kOutputFlag) in
    ret (set_output_path result (Some substr))
  else if starts_with arg kProjectionFlag then
    let substr := substr arg (String.length kProjectionFlag) in
    ret (set_projection result (ParseProjectionType substr))
  else if starts_with arg kMatchingTypeFlag then
    let substr := substr arg (String.length kMatchingTypeFlag) in
    let result := set_matching_type result (ParseMatchingType substr) in
    if negb (has_value (matching_type result)) then
      spdlog warn
        "Invalid --matching-type '{}', using default (auto). Valid: auto, single, none"
        [arg_string substr] ;;
      ret result
    else ret result
  else if starts_with arg kMatchThresholdFlag then
    let substr := substr arg (String.length kMatchThresholdFlag) in
    ret (set_match_threshold result (ParseInt substr))
  else if starts_with arg kMinShiftFlag then
    let substr := substr arg (String.length kMinShiftFlag) in
    ret (set_min_shift result (ParseFloat substr))
  else if starts_with arg kJpegQualityFlag then
    let substr := substr arg (String.length kJpegQualityFlag) in
    ret (set_jpeg_quality result (ParseInt substr))
  else if starts_with arg kPngCompressionFlag then
    let substr := substr arg (String.length kPngCompressionFlag) in
    ret (set_png_compression result (ParseInt substr))
  else if (arg =? kCopyMetadataFlag)%string then
    ret (set_copy_metadata result (Some true))
  else if (arg =? kNoCopyMetadataFlag)%string then
    ret (set_copy_metadata result (Some false))
  else if starts_with arg kWaveCorrectionFlag then
    let substr := substr arg (String.length kWaveCorrectionFlag) in
    ret (set_wave_correction result (ParseWaveCorrectionType substr))
  else if starts_with arg kMaxPanoMpxFlag then
    let substr := substr arg (String.length kMaxPanoMpxFlag) in
    ret (set_max_pano_mpx result (ParseInt substr))
  else
    ret (set_input_paths result (input_paths result ++ [arg])).

(** The body of [for (int i = 1; i < argc; ++i)]. *)
Fixpoint ParseArgsRaw_loop {env : Env} (result : Args) (rest : list string)
  : M Args :=
  match rest with
  | [] => ret result
  | arg :: rest' =>
      result' <- ParseArg result arg ;;
      ParseArgsRaw_loop result' rest'
  end.

(** [argv] holds [argc] strings, the program name first. *)
Definition ParseArgsRaw {env : Env} (argv : list string) : M Args :=
  ParseArgsRaw_loop default_Args (skipn 1 argv).

(** ** Validator *)

(** [o.has_value()] and the test holds of the value held. *)
Definition holds {A : Type} (o : option A) (test : A -> bool) : bool :=
  match o with Some a => test a | None => false end.

Definition is_empty {A : Type} (l : list A) : bool :=
  match l with [] => true | _ :: _ => false end.

Definition ValidateArgs {env : Env} (args : Args) : M bool :=
  if has_value (output_path args) && is_empty (input_paths args) then
    spdlog error "No supported images provided" [] ;;
    ret false
  else if holds (output_path args) (fun out => negb (IsExtensionSupported out))
  then
    spdlog error
      ("Unsupported output file extension: " ++ dquote ++ "{}" ++ dquote)
      (match output_path args with
       | Some out => [arg_string (extension out)]
       | None => []
       end) ;;
    ret false
  else if has_value (output_path args) && run_gui args then
    spdlog error
      "Specifying --gui and --output together is not yet supported." [] ;;
    ret false
  else if holds (match_threshold args) (fun v => (v =? 0)%Z) then
    spdlog error "Invalid value for --match-threshold" [] ;;
    ret false
  else if holds (match_threshold args)
            (fun val => (val <? kMinMatchThreshold)%Z
                        || (val >? kMaxMatchThreshold)%Z)
  then
    spdlog error "--match-threshold must be between {} and {}"
      [arg_int kMinMatchThreshold; arg_int kMaxMatchThreshold] ;;
    ret false
  else if holds (min_shift args)
            (fun val => float_lt val kMinShiftInPano
                        || float_lt kMaxShiftInPano val)
  then
    spdlog error "--min-shift must be between {} and {}"
      [arg_float kMinShiftInPano; arg_float kMaxShiftInPano] ;;
    ret false
  else if holds (jpeg_quality args)
            (fun val => (val <? 0)%Z || (val >? kMaxJpegQuality)%Z)
  then
    spdlog error "--jpeg-quality must be between 0 and {}"
      [arg_int kMaxJpegQuality] ;;
    ret false
  else if holds (png_compression args)
            (fun val => (val <? 0)%Z || (val >? kMaxPngCompression)%Z)
  then
    spdlog error "--png-compression must be between 0 and {}"
      [arg_int kMaxPngCompression] ;;
    ret false
  else if holds (max_pano_mpx args)
            (fun val => (val <? 1)%Z || (val >? 5000)%Z)
  then
    spdlog error "--max-pano-mpx must be between 1 and 5000" [] ;;
    ret false
  else ret true.

(** ** Directory expander *)

(** The inner loop over the entries of one directory: the regular files
    are appended to [result]. *)
Fixpoint push_regular_files {env : Env} (entries : list directory_entry)
  (result : list path) : M (list path) :=
  match entries with
  | [] => ret result
  | entry :: rest =>
      regular <- eval (is_regular_file entry) ;;
      push_regular_files rest
        (if regular then result ++ [entry_path entry] else result)
  end.

(** The outer loop, from the paths still to visit and the [result] built
    so far. *)
Fixpoint ExpandDirectories_loop {env : Env} {fs : FileSystem}
  (paths : list path) (result : list path) : M (list path) :=
  match paths with
  | [] => ret result
  | p :: rest =>
      dir <- eval (is_directory p) ;;
      if dir then
        spdlog info "Expanding directory: {}" [arg_string p] ;;
        entries <- eval (directory_iterator p) ;;
        result' <- push_regular_files entries result ;;
        ExpandDirectories_loop rest result'
      else
        ExpandDirectories_loop rest (result ++ [p])
  end.

Definition ExpandDirectories {env : Env} {fs : FileSystem}
  (paths : list path) : M (list path) :=
  ExpandDirectories_loop paths [].

(** ** Driver *)

(** Modelled from the spec: [utils::path::KeepSupported] of
    xpano/utils/path.h, which holds no source here; the specification
    gives it as the subsequence of the entries whose extension is in the
    supported set, that is, those [IsExtensionSupported] accepts. *)
Definition KeepSupported {env : Env} (paths : list path) : list path :=
  filter IsExtensionSupported paths.

(** [std::sort(first, last)] with the default [operator<]: the elements in
    ascending order. It is rendered as an insertion sort; for a strict
    total order the ascending arrangement of a sequence is unique
    ([sorted_permutation_unique] below), so any sorting algorithm gives
    this result. *)
Fixpoint sort_insert {env : Env} (x : path) (l : list path) : list path :=
  match l with
  | [] => [x]
  | y :: t => if path_lt y x then y :: sort_insert x t else x :: l
  end.

Definition std_sort {env : Env} (l : list path) : list path :=
  fold_right sort_insert [] l.

Definition ParseArgs {env : Env} {fs : FileSystem} (argv : list string)
  : M (option Args) :=
  parsed <- try_ (ParseArgsRaw argv) ;;
  match parsed with
  | inl e =>
      spdlog error "Error parsing arguments: {}" [arg_string (what e)] ;;
      ret None
  | inr args =>
      expanded <- ExpandDirectories (input_paths args) ;;
      let args := set_input_paths args expanded in
      let supported_inputs := KeepSupported (input_paths args) in
      if is_empty supported_inputs && negb (is_empty (input_paths args)) then
        spdlog error "No supported images provided!" [] ;;
        ret None
      else
        let args := set_input_paths args supported_inputs in
        let args := set_input_paths args (std_sort (input_paths args)) in
        valid <- ValidateArgs args ;;
        if negb valid then ret None else ret (Some args)
  end.

(* ===================================================================== *)
(** * The specification's wording, for comparison with the code *)
(* ===================================================================== *)

(** ** Decimal integers (specification 4.2) *)

Fixpoint all_digits (s : string) : bool :=
  match s with
  | EmptyString => true
  | String c t => is_digit c && all_digits t
  end.

(** The number a run of digits denotes, most significant digit first,
    continuing from [acc]. *)
Fixpoint digits_value (s : string) (acc : Z) : Z :=
  match s with
  | EmptyString => acc
  | String c t => digits_value t (10 * acc + digit_value c)%Z
  end.

(** The whole string is a decimal integer: an optional minus sign, then
    one or more decimal digits and nothing else. *)
Definition decimal_integer (s : string) : bool :=
  let '(_, ds) := strip_minus s in
  negb (ds =? "")%string && all_digits ds.

(** The integer such a string denotes. *)
Definition decimal_value (s : string) : Z :=
  let '(neg, ds) := strip_minus s in
  if neg then (- digits_value ds 0)%Z else digits_value ds 0%Z.

(** ** The validator's rule table (specification 4.6) *)

Definition error_line {env : Env} (f : string) (args : list fmt_arg)
  : log_line :=
  {| lvl := error; fmt := f; fmt_args := args |}.

(** A rule: the condition under which it fails, and its diagnostic. *)
Record rule {env : Env} : Type := {
  fails : Args -> bool;
  diagnostic : Args -> log_line
}.

(** The nine rules in the order the specification lists them. *)
Definition validator_rules {env : Env} : list rule := [
  (* 1. output_path set and input_paths empty *)
  {| fails := fun a => has_value (output_path a) && is_empty (input_paths a);
     diagnostic := fun _ => error_line "No supported images provided" [] |};
  (* 2. output_path set and its extension unsupported *)
  {| fails := fun a =>
       match output_path a with
       | Some out => negb (IsExtensionSupported out)
       | None => false
       end;
     diagnostic := fun a =>
       error_line
         ("Unsupported output file extension: " ++ dquote ++ "{}" ++ dquote)
         (match output_path a with
          | Some out => [arg_string (extension out)]
          | None => []
          end) |};
  (* 3. output_path set and run_gui true *)
  {| fails := fun a => has_value (output_path a) && run_gui a;
     diagnostic := fun _ =>
       error_line
         "Specifying --gui and --output together is not yet supported." [] |};
  (* 4. match_threshold set and zero *)
  {| fails := fun a =>
       match match_threshold a with
       | Some v => (v =? 0)%Z
       | None => false
       end;
     diagnostic := fun _ =>
       error_line "Invalid value for --match-threshold" [] |};
  (* 5. match_threshold set and outside [min, max] *)
  {| fails := fun a =>
       match match_threshold a with
       | Some v => negb ((kMinMatchThreshold <=? v)%Z
                         && (v <=? kMaxMatchThreshold)%Z)
       | None => false
       end;
     diagnostic := fun _ =>
       error_line "--match-threshold must be between {} and {}"
         [arg_int kMinMatchThreshold; arg_int kMaxMatchThreshold] |};
  (* 6. min_shift set and outside [min, max] *)
  {| fails := fun a =>
       match min_shift a with
       | Some v => float_lt v kMinShiftInPano || float_lt kMaxShiftInPano v
       | None => false
       end;
     diagnostic := fun _ =>
       error_line "--min-shift must be between {} and {}"
         [arg_float kMinShiftInPano; arg_float kMaxShiftInPano] |};
  (* 7. jpeg_quality set and outside [0, max] *)
  {| fails := fun a =>
       match jpeg_quality a with
       | Some v => negb ((0 <=? v)%Z && (v <=? kMaxJpegQuality)%Z)
       | None => false
       end;
     diagnostic := fun _ =>
       error_line "--jpeg-quality must be between 0 and {}"
         [arg_int kMaxJpegQuality] |};
  (* 8. png_compression set and outside [0, max] *)
  {| fails := fun a =>
       match png_compression a with
       | Some v => negb ((0 <=? v)%Z && (v <=? kMaxPngCompression)%Z)
       | None => false
       end;
     diagnostic := fun _ =>
       error_line "--png-compression must be between 0 and {}"
         [arg_int kMaxPngCompression] |};
  (* 9. max_pano_mpx set and outside [1, 5000] *)
  {| fails := fun a =>
       match max_pano_mpx a with
       | Some v => negb ((1 <=? v)%Z && (v <=? 5000)%Z)
       | None => false
       end;
     diagnostic := fun _ =>
       error_line "--max-pano-mpx must be between 1 and 5000" [] |}
].

(** Evaluating a rule table in order, stopping at the first rule that
    fails and logging its diagnostic alone. *)
Fixpoint first_failing {env : Env} (rules : list rule) (a : Args) : M bool :=
  match rules with
  | [] => (Returned true, [])
  | r :: rest =>
      if fails r a then (Returned false, [diagnostic r a])
      else first_failing rest a
  end.

(** ** One-level directory expansion (specification 4.4) *)

(** What one positional path contributes: the paths of the regular files
    among the immediate children of a directory, in enumeration order, or
    the path itself when it is not a directory. Nothing is said here of a
    path whose inspection throws. *)
Definition regular_children (entries : list directory_entry) : list path :=
  map entry_path
    (filter (fun e => match is_regular_file e with
                      | Returned true => true
                      | _ => false
                      end) entries).

Definition all_children (entries : list directory_entry) : list path :=
  map entry_path entries.

Definition expand_entry {fs : FileSystem} (p : path) : list path :=
  match is_directory p with
  | Returned true =>
      match directory_iterator p with
      | Returned entries => regular_children entries
      | Thrown _ => []
      end
  | _ => [p]
  end.

(** The file-system calls made for [paths] all return. *)
Definition entry_readable (e : directory_entry) : Prop :=
  exists b, is_regular_file e = Returned b.

Definition readable {fs : FileSystem} (p : path) : Prop :=
  is_directory p = Returned false \/
  (is_directory p = Returned true /\
   exists entries, directory_iterator p = Returned entries
                   /\ Forall entry_readable entries).

(** ** Ascending order *)


(** ** Outcomes of the driver *)

Definition succeeded {env : Env} (m : M (option Args)) : bool :=
  match fst m with
  | Returned (Some _) => true
  | _ => false
  end.

Definition errors_logged {env : Env} (l : list log_line) : list log_line :=
  filter (fun line => match lvl line with error => true | _ => false end) l.

(** ** The token dispatcher, case by case (specification 4.1) *)

Definition matching_type_warning {env : Env} (value : string) : log_line :=
  {| lvl := warn;
     fmt := "Invalid --matching-type '{}', using default (auto). Valid: auto, single, none";
     fmt_args := [arg_string value] |}.

(** The token is one of the flags of the command line. *)
Definition recognised (arg : string) : bool :=
  (arg =? kGuiFlag)%string || (arg =? kHelpFlag)%string
  || (arg =? kVersionFlag)%string || starts_with arg kOutputFlag
  || starts_with arg kProjectionFlag || starts_with arg kMatchingTypeFlag
  || starts_with arg kMatchThresholdFlag || starts_with arg kMinShiftFlag
  || starts_with arg kJpegQualityFlag || starts_with arg kPngCompressionFlag
  || (arg =? kCopyMetadataFlag)%string || (arg =? kNoCopyMetadataFlag)%string
  || starts_with arg kWaveCorrectionFlag || starts_with arg kMaxPanoMpxFlag.

(** What a token does, whatever the record it is applied to: the update
    it makes and the lines it logs. *)
Inductive dispatch {env : Env} (arg : string)
  : (Args -> Args) -> list log_line -> Prop :=
| dispatch_gui :
    arg = kGuiFlag ->
    dispatch arg (fun r => set_run_gui r true) []
| dispatch_help :
    arg = kHelpFlag ->
    dispatch arg (fun r => set_print_help r true) []
| dispatch_version :
    arg = kVersionFlag ->
    dispatch arg (fun r => set_print_version r true) []
| dispatch_output :
    starts_with arg kOutputFlag = true ->
    dispatch arg
      (fun r => set_output_path r
                  (Some (substr arg (String.length kOutputFlag)))) []
| dispatch_projection :
    starts_with arg kProjectionFlag = true ->
    dispatch arg
      (fun r => set_projection r
                  (ParseProjectionType
                     (substr arg (String.length kProjectionFlag)))) []
| dispatch_matching_type (m : pipeline.MatchingType) :
    starts_with arg kMatchingTypeFlag = true ->
    ParseMatchingType (substr arg (String.length kMatchingTypeFlag)) = Some m ->
    dispatch arg (fun r => set_matching_type r (Some m)) []
| dispatch_matching_type_invalid :
    starts_with arg kMatchingTypeFlag = true ->
    ParseMatchingType (substr arg (String.length kMatchingTypeFlag)) = None ->
    dispatch arg (fun r => set_matching_type r None)
      [matching_type_warning (substr arg (String.length kMatchingTypeFlag))]
| dispatch_match_threshold :
    starts_with arg kMatchThresholdFlag = true ->
    dispatch arg
      (fun r => set_match_threshold r
                  (ParseInt (substr arg (String.length kMatchThresholdFlag))))
      []
| dispatch_min_shift :
    starts_with arg kMinShiftFlag = true ->
    dispatch arg
      (fun r => set_min_shift r
                  (ParseFloat (substr arg (String.length kMinShiftFlag)))) []
| dispatch_jpeg_quality :
    starts_with arg kJpegQualityFlag = true ->
    dispatch arg
      (fun r => set_jpeg_quality r
                  (ParseInt (substr arg (String.length kJpegQualityFlag)))) []
| dispatch_png_compression :
    starts_with arg kPngCompressionFlag = true ->
    dispatch arg
      (fun r => set_png_compression r
                  (ParseInt (substr arg (String.length kPngCompressionFlag))))
      []
| dispatch_copy_metadata :
    arg = kCopyMetadataFlag ->
    dispatch arg (fun r => set_copy_metadata r (Some true)) []
| dispatch_no_copy_metadata :
    arg = kNoCopyMetadataFlag ->
    dispatch arg (fun r => set_copy_metadata r (Some false)) []
| dispatch_wave_correction :
    starts_with arg kWaveCorrectionFlag = true ->
    dispatch arg
      (fun r => set_wave_correction r
                  (ParseWaveCorrectionType
                     (substr arg (String.length kWaveCorrectionFlag)))) []
| dispatch_max_pano_mpx :
    starts_with arg kMaxPanoMpxFlag = true ->
    dispatch arg
      (fun r => set_max_pano_mpx r
                  (ParseInt (substr arg (String.length kMaxPanoMpxFlag)))) []
| dispatch_positional :
    recognised arg = false ->
    dispatch arg (fun r => set_input_paths r (input_paths r ++ [arg])) [].

(** Two records agree on every member the driver and the validator read
    after the dispatcher has run. *)
Definition same_checked {env : Env} (a b : Args) : Prop :=
  run_gui a = run_gui b /\ input_paths a = input_paths b
  /\ output_path a = output_path b
  /\ match_threshold a = match_threshold b /\ min_shift a = min_shift b
  /\ jpeg_quality a = jpeg_quality b /\ png_compression a = png_compression b
  /\ max_pano_mpx a = max_pano_mpx b.

(** ** Members written by a flag *)

(** The members of [Args] that a flag of the command line assigns. *)
Inductive member : Type :=
| m_output_path | m_projection | m_matching_type | m_match_threshold
| m_min_shift | m_jpeg_quality | m_png_compression | m_copy_metadata
| m_wave_correction | m_max_pano_mpx.

(** The token is an occurrence of the flag (or of one of the two flags)
    that assigns the member. *)
Definition assigns (m : member) (tok : string) : bool :=
  match m with
  | m_output_path => starts_with tok kOutputFlag
  | m_projection => starts_with tok kProjectionFlag
  | m_matching_type => starts_with tok kMatchingTypeFlag
  | m_match_threshold => starts_with tok kMatchThresholdFlag
  | m_min_shift => starts_with tok kMinShiftFlag
  | m_jpeg_quality => starts_with tok kJpegQualityFlag
  | m_png_compression => starts_with tok kPngCompressionFlag
  | m_copy_metadata =>
      (tok =? kCopyMetadataFlag)%string || (tok =? kNoCopyMetadataFlag)%string
  | m_wave_correction => starts_with tok kWaveCorrectionFlag
  | m_max_pano_mpx => starts_with tok kMaxPanoMpxFlag
  end.

(** The member holds what the token [tok] alone gives it: the parse of
    the text after the flag, unset when that text does not parse. *)
Definition holds_value_of {env : Env} (m : member) (tok : string) (r : Args)
  : Prop :=
  match m with
  | m_output_path =>
      output_path r = Some (substr tok (String.length kOutputFlag))
  | m_projection =>
      projection r =
      ParseProjectionType (substr tok (String.length kProjectionFlag))
  | m_matching_type =>
      matching_type r =
      ParseMatchingType (substr tok (String.length kMatchingTypeFlag))
  | m_match_threshold =>
      match_threshold r =
      ParseInt (substr tok (String.length kMatchThresholdFlag))
  | m_min_shift =>
      min_shift r = ParseFloat (substr tok (String.length kMinShiftFlag))
  | m_jpeg_quality =>
      jpeg_quality r = ParseInt (substr tok (String.length kJpegQualityFlag))
  | m_png_compression =>
      png_compression r =
      ParseInt (substr tok (String.length kPngCompressionFlag))
  | m_copy_metadata =>
      copy_metadata r = Some (tok =? kCopyMetadataFlag)%string
  | m_wave_correction =>
      wave_correction r =
      ParseWaveCorrectionType (substr tok (String.length kWaveCorrectionFlag))
  | m_max_pano_mpx =>
      max_pano_mpx r = ParseInt (substr tok (String.length kMaxPanoMpxFlag))
  end.

(** Two records hold the same value in the member. *)
Definition same_member {env : Env} (m : member) (a b : Args) : Prop :=
  match m with
  | m_output_path => output_path a = output_path b
  | m_projection => projection a = projection b
  | m_matching_type => matching_type a = matching_type b
  | m_match_threshold => match_threshold a = match_threshold b
  | m_min_shift => min_shift a = min_shift b
  | m_jpeg_quality => jpeg_quality a = jpeg_quality b
  | m_png_compression => png_compression a = png_compression b
  | m_copy_metadata => copy_metadata a = copy_metadata b
  | m_wave_correction => wave_correction a = wave_correction b
  | m_max_pano_mpx => max_pano_mpx a = max_pano_mpx b
  end.

(** ** The driver after the dispatcher *)

(** The part of [ParseArgs] that follows a successful [ParseArgsRaw],
    named so that it can be reasoned about for any record. *)
Definition after_dispatch {env : Env} {fs : FileSystem} (args : Args)
  : M (option Args) :=
  expanded <- ExpandDirectories (input_paths args) ;;
  let args := set_input_paths args expanded in
  let supported_inputs := KeepSupported (input_paths args) in
  if is_empty supported_inputs && negb (is_empty (input_paths args)) then
    spdlog error "No supported images provided!" [] ;;
    ret None
  else
    let args := set_input_paths args supported_inputs in
    let args := set_input_paths args (std_sort (input_paths args)) in
    valid <- ValidateArgs args ;;
    if negb valid then ret None else ret (Some args).

(** A token the later stages never look at: it changes no member that
    the expander, the filter, the sort or the validator reads. *)
Definition unchecked_update {env : Env} (f : Args -> Args) : Prop :=
  forall r, same_checked r (f r).

(** The line logged when a directory is expanded. *)
Definition expanding_line {env : Env} (p : path) : log_line :=
  {| lvl := info; fmt := "Expanding directory: {}";
     fmt_args := [arg_string p] |}.

Definition is_directory_true {fs : FileSystem} (p : path) : bool :=
  match is_directory p with
  | Returned true => true
  | _ => false
  end.

(** Expansion read as keeping every immediate child of a directory,
    subdirectories included, for a later stage to drop. *)
Definition expand_entry_keeping_all {fs : FileSystem} (p : path) : list path :=
  match is_directory p with
  | Returned true =>
      match directory_iterator p with
      | Returned entries => all_children entries
      | Thrown _ => []
      end
  | _ => [p]
  end.

(** Two runs of the driver end alike: the same exception, or failure
    both times, or two records that agree on every checked member. *)
Definition same_outcome {env : Env} (m1 m2 : M (option Args)) : Prop :=
  match fst m1, fst m2 with
  | Returned (Some x), Returned (Some y) => same_checked x y
  | Returned None, Returned None => True
  | Thrown e1, Thrown e2 => e1 = e2
  | _, _ => False
  end.

(* ===================================================================== *)
(** * A sample platform, to run the model on concrete command lines *)
(* ===================================================================== *)

(** The text from the last dot on, or nothing. *)
Fixpoint sample_extension (s : string) : string :=
  match s with
  | EmptyString => EmptyString
  | String c t =>
      let e := sample_extension t in
      if negb (e =? "")%string then e
      else if Ascii.eqb c "."%char then s else EmptyString
  end.

(** A few conversions of [std::stof]; for anything else it throws. *)
Definition sample_stof (s : string) : outcome (Q * nat) :=
  if (s =? "0.5")%string then Returned (1 # 2, 3%nat)
  else if (s =? "0.5x")%string then Returned (1 # 2, 3%nat)
  else if (s =? "2.5")%string then Returned (5 # 2, 3%nat)
  else Thrown (std_exception "stof").

(** Rationals stand for [float], strings are compared character by
    character, and the bounds are sample values. *)
Definition sample_env : Env := {|
  float := Q;
  float_lt := fun a b => negb (Qle_bool b a);
  stof := sample_stof;
  path_lt := String.ltb;
  extension := sample_extension;
  kMinMatchThreshold := 4;
  kMaxMatchThreshold := 250;
  kMinShiftInPano := 0 # 1;
  kMaxShiftInPano := 1 # 1;
  kMaxJpegQuality := 100;
  kMaxPngCompression := 9;
  IsExtensionSupported := fun p =>
    (sample_extension p =? ".jpg")%string
    || (sample_extension p =? ".png")%string
|}.

Definition regular (p : path) : directory_entry :=
  {| entry_path := p; is_regular_file := Returned true |}.

Definition subdirectory (p : path) : directory_entry :=
  {| entry_path := p; is_regular_file := Returned false |}.

(** A directory [photos] with three files and a subdirectory [raw] that
    holds one more image, and a directory [locked] that cannot be read. *)
Definition sample_fs : FileSystem := {|
  is_directory := fun p =>
    Returned ((p =? "photos")%string || (p =? "photos/raw")%string
              || (p =? "locked")%string);
  directory_iterator := fun p =>
    if (p =? "photos")%string then
      Returned [regular "photos/a.jpg"; regular "photos/b.png";
                regular "photos/notes.txt"; subdirectory "photos/raw"]
    else if (p =? "photos/raw")%string then
      Returned [regular "photos/raw/c.jpg"]
    else
      Thrown (std_exception "filesystem error: cannot open directory")
|}.

(** [ParseArgs] on the sample platform. *)
Definition sample_run (argv : list string) : M (option Args) :=
  @ParseArgs sample_env sample_fs argv.


(* ===================================================================== *)
(** * The rest of args.cc, and notions for its properties *)
(* ===================================================================== *)

(** ** Literals of the enum resolvers *)

(** The literal each resolver maps to a variant, read off its chain of
    comparisons. *)
Definition projection_literal (t : algorithm.ProjectionType) : string :=
  match t with
  | algorithm.kPerspective => "perspective"
  | algorithm.kCylindrical => "cylindrical"
  | algorithm.kSpherical => "spherical"
  | algorithm.kFisheye => "fisheye"
  | algorithm.kStereographic => "stereographic"
  | algorithm.kCompressedRectilinear => "rectilinear"
  | algorithm.kPanini => "panini"
  | algorithm.kMercator => "mercator"
  | algorithm.kTransverseMercator => "transverse-mercator"
  end.

Definition wave_correction_literal (t : algorithm.WaveCorrectionType)
  : string :=
  match t with
  | algorithm.kOff => "off"
  | algorithm.kAuto => "auto"
  | algorithm.kHorizontal => "horizontal"
  | algorithm.kVertical => "vertical"
  end.

Definition matching_type_literal (t : pipeline.MatchingType) : string :=
  match t with
  | pipeline.kAuto => "auto"
  | pipeline.kSinglePano => "single"
  | pipeline.kNone => "none"
  end.

(** ** Flags and positional tokens of a command line *)

Definition positionals (toks : list string) : list string :=
  filter (fun t => negb (recognised t)) toks.

Definition flags_of (toks : list string) : list string :=
  filter recognised toks.

(** The lines the dispatcher logs for one token. *)
Definition warning_of {env : Env} (tok : string) : list log_line :=
  if starts_with tok kMatchingTypeFlag then
    match ParseMatchingType (substr tok (String.length kMatchingTypeFlag)) with
    | Some _ => []
    | None =>
        [matching_type_warning
           (substr tok (String.length kMatchingTypeFlag))]
    end
  else [].

(** Two records agree on every member other than [input_paths]. *)
Definition eq_but_paths {env : Env} (a b : Args) : Prop :=
  run_gui a = run_gui b /\ print_help a = print_help b
  /\ print_version a = print_version b /\ output_path a = output_path b
  /\ projection a = projection b /\ matching_type a = matching_type b
  /\ match_threshold a = match_threshold b /\ min_shift a = min_shift b
  /\ jpeg_quality a = jpeg_quality b /\ png_compression a = png_compression b
  /\ copy_metadata a = copy_metadata b
  /\ wave_correction a = wave_correction b
  /\ max_pano_mpx a = max_pano_mpx b.

(** ** Errors of the expander *)

(** The exception the loop over the entries of a directory ends with, if
    any: that of the first entry whose [is_regular_file()] throws. *)
Fixpoint entries_error (entries : list directory_entry) : option exception :=
  match entries with
  | [] => None
  | entry :: rest =>
      match is_regular_file entry with
      | Returned _ => entries_error rest
      | Thrown e => Some e
      end
  end.

(** The exception the inspection of one path ends with, if any, and the
    lines logged before it. *)
Definition path_error {env : Env} {fs : FileSystem} (p : path)
  : option (exception * list log_line) :=
  match is_directory p with
  | Thrown e => Some (e, [])
  | Returned false => None
  | Returned true =>
      match directory_iterator p with
      | Thrown e => Some (e, [expanding_line p])
      | Returned entries =>
          match entries_error entries with
          | Some e => Some (e, [expanding_line p])
          | None => None
          end
      end
  end.

(** ** Help renderer *)

(** The constants [PrintHelp] prints besides those the validator uses,
    from xpano/constants.h. *)
Class HelpEnv {env : Env} : Type := {
  kDefaultMatchThreshold : Z;
  kDefaultShiftInPano : float;
  kDefaultJpegQuality : Z;
  kDefaultPngCompression : Z;
  kMaxPanoMpx : Z;
  kSupportedExtensions : list string
}.

(** [fmt::join(range, sep)], as the text it prints. *)
Definition fmt_join (range : list string) (sep : string) : string :=
  String.concat sep range.

Definition PrintHelp {env : Env} {help : HelpEnv} : M unit :=
  spdlog info "Xpano v1.3 - added matching type flag" [] ;;
  spdlog info "" [] ;;
  spdlog info "Usage: Xpano [<input files or directories>] [options]" [] ;;
  spdlog info "" [] ;;
  spdlog info "Options:" [] ;;
  spdlog info "  --output=<path>          Output file path" [] ;;
  spdlog info "  --gui                    Launch GUI mode" [] ;;
  spdlog info "  --help                   Show this help message" [] ;;
  spdlog info "  --version                Show version" [] ;;
  spdlog info "" [] ;;
  spdlog info "Projection:" [] ;;
  spdlog info
    "  --projection=<type>      Projection type (default: spherical)" [] ;;
  spdlog info
    "                           Types: perspective, cylindrical, spherical,"
    [] ;;
  spdlog info
    "                           fisheye, stereographic, rectilinear, panini,"
    [] ;;
  spdlog info "                           mercator, transverse-mercator" [] ;;
  spdlog info "" [] ;;
  spdlog info "Matching:" [] ;;
  spdlog info "  --matching-type=<type>   Matching mode (default: auto)" [] ;;
  spdlog info "                           Types: auto, single, none" [] ;;
  spdlog info
    "                           auto: pairwise matching, recommended" [] ;;
  spdlog info
    "                           single: assume all images form one pano"
    [] ;;
  spdlog info "                           none: skip matching" [] ;;
  spdlog info
    "  --match-threshold=<N>    Match threshold, {} - {} (default: {})"
    [arg_int kMinMatchThreshold; arg_int kMaxMatchThreshold;
     arg_int kDefaultMatchThreshold] ;;
  spdlog info
    "  --min-shift=<F>          Min shift filter, {} - {} (default: {})"
    [arg_float kMinShiftInPano; arg_float kMaxShiftInPano;
     arg_float kDefaultShiftInPano] ;;
  spdlog info "" [] ;;
  spdlog info "Export:" [] ;;
  spdlog info "  --jpeg-quality=<N>       JPEG quality, 0 - {} (default: {})"
    [arg_int kMaxJpegQuality; arg_int kDefaultJpegQuality] ;;
  spdlog info
    "  --png-compression=<N>    PNG compression, 0 - {} (default: {})"
    [arg_int kMaxPngCompression; arg_int kDefaultPngCompression] ;;
  spdlog info "  --copy-metadata          Copy EXIF from first image" [] ;;
  spdlog info "  --no-copy-metadata       Don't copy EXIF metadata" [] ;;
  spdlog info "" [] ;;
  spdlog info "Stitching:" [] ;;
  spdlog info "  --wave-correction=<type> Wave correction (default: auto)" [] ;;
  spdlog info
    "                           Types: off, auto, horizontal, vertical" [] ;;
  spdlog info
    "  --max-pano-mpx=<N>       Max panorama size in megapixels (default: {})"
    [arg_int kMaxPanoMpx] ;;
  spdlog info "" [] ;;
  spdlog info "Supported formats: {}"
    [arg_string (fmt_join kSupportedExtensions ", ")].

(** The words of a line: the runs of characters between blanks and
    commas. *)
Fixpoint words_from (s : string) (current : string) : list string :=
  match s with
  | EmptyString =>
      if (current =? "")%string then [] else [current]
  | String c t =>
      if Ascii.eqb c " "%char || Ascii.eqb c ","%char
      then (if (current =? "")%string then [] else [current])
             ++ words_from t ""
      else words_from t (current ++ String c "")
  end.

Definition words (s : string) : list string := words_from s "".

(** The words of the usage text, line after line. *)
Definition help_words {env : Env} {help : HelpEnv} : list string :=
  flat_map (fun line => words (fmt line)) (snd PrintHelp).

(** The flags the dispatcher compares a token with. *)
Definition dispatcher_flags : list string :=
  [kGuiFlag; kOutputFlag; kHelpFlag; kVersionFlag; kProjectionFlag;
   kMatchingTypeFlag; kMatchThresholdFlag; kMinShiftFlag; kJpegQualityFlag;
   kPngCompressionFlag; kCopyMetadataFlag; kNoCopyMetadataFlag;
   kWaveCorrectionFlag; kMaxPanoMpxFlag].

(* ===================================================================== *)
(** * Typed value parsers *)
(* ===================================================================== *)

Section ValueParsers.

Lemma scan_digits_bound (s : string) (acc : Z) :
  (fst (scan_digits s acc) <= String.length s)%nat.
Proof.
  revert acc; induction s as [|c t IH]; intros acc; simpl; [lia|].
  destruct (is_digit c); simpl; [|lia].
  specialize (IH (10 * acc + digit_value c)%Z).
  destruct (scan_digits t _) as [n v]; simpl in *; lia.
Qed.

Lemma scan_digits_whole (s : string) (acc : Z) :
  fst (scan_digits s acc) = String.length s <-> all_digits s = true.
Proof.
  revert acc; induction s as [|c t IH]; intros acc; simpl; [tauto|].
  destruct (is_digit c); simpl.
  - specialize (IH (10 * acc + digit_value c)%Z).
    destruct (scan_digits t _) as [n v]; simpl in *.
    rewrite <- IH; split; intros H; [injection H; auto | now f_equal].
  - split; discriminate.
Qed.

Lemma scan_digits_value (s : string) (acc : Z) :
  all_digits s = true -> snd (scan_digits s acc) = digits_value s acc.
Proof.
  revert acc; induction s as [|c t IH]; intros acc; simpl; [reflexivity|].
  destruct (is_digit c); simpl; [|discriminate].
  intros H; specialize (IH (10 * acc + digit_value c)%Z H).
  destruct (scan_digits t _) as [n v]; simpl in *; exact IH.
Qed.

Lemma scan_digits_none (s : string) (acc : Z) :
  fst (scan_digits s acc) = 0%nat -> s <> EmptyString -> all_digits s = false.
Proof.
  destruct s as [|c t]; simpl; [congruence|].
  destruct (is_digit c); simpl; [|reflexivity].
  destruct (scan_digits t _); simpl; discriminate.
Qed.

Lemma strip_minus_length (s : string) :
  String.length s =
  ((if fst (strip_minus s) then 1 else 0) + String.length (snd (strip_minus s)))%nat.
Proof.
  destruct s as [|c t]; simpl; [reflexivity|].
  destruct (Ascii.eqb c "-"); reflexivity.
Qed.

(** The integer parser, characterised: a value is returned exactly for a
    string that is, as a whole, a decimal integer within the range of
    [int], and the value is the integer denoted. *)
Lemma ParseInt_spec (str : string) (v : Z) :
  ParseInt str = Some v <->
  decimal_integer str = true /\ v = decimal_value str
  /\ (INT_MIN <= v <= INT_MAX)%Z.
Proof.
  unfold ParseInt, from_chars, decimal_integer, decimal_value.
  pose proof (strip_minus_length str) as Hlen.
  destruct (strip_minus str) as [neg rest]; simpl in Hlen.
  pose proof (scan_digits_bound rest 0) as Hb.
  pose proof (scan_digits_whole rest 0) as Hw.
  pose proof (scan_digits_value rest 0) as Hv.
  pose proof (@scan_digits_none rest 0%Z) as Hn.
  destruct (scan_digits rest 0) as [n magnitude]; simpl in *.
  destruct n as [|n].
  - simpl. split; [discriminate|].
    intros [Hd _]. apply andb_true_iff in Hd as [Hne Hall].
    destruct rest as [|c t]; [discriminate|].
    rewrite Hn in Hall; congruence.
  - set (val := if neg then (- magnitude)%Z else magnitude).
    destruct ((INT_MIN <=? val)%Z && (val <=? INT_MAX)%Z) eqn:Hr; simpl.
    + apply andb_true_iff in Hr as [Hr1 Hr2].
      apply Z.leb_le in Hr1; apply Z.leb_le in Hr2.
      destruct (Nat.eqb_spec ((if neg then 1 else 0) + S n) (String.length str))
        as [He|He].
      * assert (Hall : all_digits rest = true) by (apply Hw; lia).
        assert (Hne : negb (rest =? "")%string = true).
        { destruct rest; [simpl in Hw; lia | reflexivity]. }
        rewrite Hne, Hall, <- (Hv Hall); simpl.
        split.
        -- intros H; injection H as <-. subst val.
           destruct neg; repeat split; lia.
        -- intros (_ & -> & _). subst val. now destruct neg.
      * split; [discriminate|]. intros (Hd & _).
        apply andb_true_iff in Hd as [_ Hall].
        apply Hw in Hall. lia.
    + split; [discriminate|]. intros (Hd & -> & Hrange).
      apply andb_true_iff in Hd as [_ Hall].
      rewrite <- (Hv Hall) in Hrange.
      apply andb_false_iff in Hr.
      subst val. destruct Hr as [Hr|Hr]; apply Z.leb_gt in Hr;
        destruct neg; lia.
Qed.

End ValueParsers.

(* ===================================================================== *)
(** * Token dispatcher *)
(* ===================================================================== *)

Section Dispatcher.
Context {env : Env}.

Lemma bind_returned {A B : Type} (a : A) (l : list log_line) (k : A -> M B) :
  bind (Returned a, l) k = (fst (k a), l ++ snd (k a)).
Proof. unfold bind. now destruct (k a). Qed.

(** Every token is handled by one case of [dispatch], and [ParseArg]
    returns the record that case describes. *)
Lemma ParseArg_dispatch (arg : string) :
  exists f l, dispatch arg f l
              /\ forall r, ParseArg r arg = (Returned (f r), l).
Proof.
  unfold ParseArg; cbv zeta.
  assert (Hrec : recognised arg = false -> recognised arg = false) by auto.
  unfold recognised at 1 in Hrec.
  destruct (String.eqb_spec arg kGuiFlag);
    [eexists _, _; split; [now apply dispatch_gui | reflexivity]|].
  destruct (String.eqb_spec arg kHelpFlag);
    [eexists _, _; split; [now apply dispatch_help | reflexivity]|].
  destruct (String.eqb_spec arg kVersionFlag);
    [eexists _, _; split; [now apply dispatch_version | reflexivity]|].
  destruct (starts_with arg kOutputFlag) eqn:Hout;
    [eexists _, _; split; [now apply dispatch_output | reflexivity]|].
  destruct (starts_with arg kProjectionFlag) eqn:?;
    [eexists _, _; split; [now apply dispatch_projection | reflexivity]|].
  destruct (starts_with arg kMatchingTypeFlag) eqn:?.
  { destruct (ParseMatchingType (substr arg (String.length kMatchingTypeFlag)))
      as [m|] eqn:Hm.
    - eexists _, _; split; [now eapply dispatch_matching_type; eauto|].
      intros r; reflexivity.
    - eexists _, _; split; [now apply dispatch_matching_type_invalid|].
      intros r; reflexivity. }
  destruct (starts_with arg kMatchThresholdFlag) eqn:?;
    [eexists _, _; split; [now apply dispatch_match_threshold | reflexivity]|].
  destruct (starts_with arg kMinShiftFlag) eqn:?;
    [eexists _, _; split; [now apply dispatch_min_shift | reflexivity]|].
  destruct (starts_with arg kJpegQualityFlag) eqn:?;
    [eexists _, _; split; [now apply dispatch_jpeg_quality | reflexivity]|].
  destruct (starts_with arg kPngCompressionFlag) eqn:?;
    [eexists _, _; split; [now apply dispatch_png_compression | reflexivity]|].
  destruct (String.eqb_spec arg kCopyMetadataFlag);
    [eexists _, _; split; [now apply dispatch_copy_metadata | reflexivity]|].
  destruct (String.eqb_spec arg kNoCopyMetadataFlag);
    [eexists _, _; split; [now apply dispatch_no_copy_metadata | reflexivity]|].
  destruct (starts_with arg kWaveCorrectionFlag) eqn:?;
    [eexists _, _; split; [now apply dispatch_wave_correction | reflexivity]|].
  destruct (starts_with arg kMaxPanoMpxFlag) eqn:?;
    [eexists _, _; split; [now apply dispatch_max_pano_mpx | reflexivity]|].
  eexists _, _; split; [apply dispatch_positional; now apply Hrec | reflexivity].
Qed.

End Dispatcher.

Section DispatcherMembers.
Context {env : Env}.

(** A string that starts with a prefix is that prefix followed by the
    rest [substr] gives. *)
Lemma starts_with_split (s p : string) :
  starts_with s p = true -> s = (p ++ substr s (String.length p))%string.
Proof.
  unfold starts_with. revert s; induction p as [|c p IH]; intros s H; simpl.
  - reflexivity.
  - destruct s as [|d s]; simpl in H; [discriminate|].
    destruct (ascii_dec c d) as [->|]; [|discriminate].
    simpl. f_equal. now apply IH.
Qed.

Ltac split_flag H :=
  let E := fresh "E" in
  pose proof (starts_with_split _ _ H) as E; simpl String.length in E;
  rewrite E in *; clear E.

(** A token that is not an occurrence of the member's flag leaves the
    member as it was. *)
Lemma dispatch_frame (m : member) (arg : string) f l (r : Args) :
  dispatch arg f l -> assigns m arg = false -> same_member m r (f r).
Proof.
  intros D Hm; destruct D; destruct m; simpl in *; try reflexivity;
    try congruence; subst; discriminate.
Qed.

(** An occurrence of the member's flag gives the member its value. *)
Lemma dispatch_assigns (m : member) (arg : string) f l (r : Args) :
  dispatch arg f l -> assigns m arg = true -> holds_value_of m arg (f r).
Proof.
  intros D Hm; destruct D; destruct m; unfold assigns in Hm;
    try (apply orb_true_iff in Hm as [Hm|Hm]; apply String.eqb_eq in Hm);
    try (subst arg; discriminate);
    try (subst arg; reflexivity);
    try (match goal with
         | H1 : starts_with arg ?p = true, H2 : starts_with arg ?q = true |- _ =>
             exfalso; pose proof (starts_with_split _ _ H2) as E;
             simpl String.length in E; rewrite E in H1; discriminate H1
         end);
    try (exfalso; unfold recognised in *;
         repeat match goal with
                | H : (_ || _)%bool = false |- _ =>
                    apply orb_false_iff in H; destruct H
                end;
         try (subst arg; discriminate); congruence);
    unfold holds_value_of; cbn [matching_type set_matching_type];
    try congruence; reflexivity.
Qed.

End DispatcherMembers.

Section RawLoop.
Context {env : Env}.

Lemma same_checked_refl (a : Args) : same_checked a a.
Proof. repeat split. Qed.

Lemma same_checked_sym (a b : Args) : same_checked a b -> same_checked b a.
Proof. unfold same_checked; intuition congruence. Qed.

Lemma same_checked_trans (a b c : Args) :
  same_checked a b -> same_checked b c -> same_checked a c.
Proof. unfold same_checked; intuition congruence. Qed.

Lemma same_member_trans (m : member) (a b c : Args) :
  same_member m a b -> same_member m b c -> same_member m a c.
Proof. destruct m; simpl; congruence. Qed.

Lemma holds_value_of_transfer (m : member) (tok : string) (a b : Args) :
  same_member m a b -> holds_value_of m tok a -> holds_value_of m tok b.
Proof. destruct m; simpl; congruence. Qed.

(** The dispatcher never throws: the loop over the tokens returns. *)
Lemma ParseArgsRaw_loop_returns (toks : list string) (r : Args) :
  exists r' l, ParseArgsRaw_loop r toks = (Returned r', l).
Proof.
  revert r; induction toks as [|arg toks IH]; intros r; simpl.
  - now eexists _, _.
  - destruct (ParseArg_dispatch arg) as (f & l & _ & Hf).
    rewrite Hf, bind_returned.
    destruct (IH (f r)) as (r' & l' & ->). now eexists _, _.
Qed.

Lemma ParseArgsRaw_returns (argv : list string) :
  exists raw l, ParseArgsRaw argv = (Returned raw, l).
Proof. apply ParseArgsRaw_loop_returns. Qed.

(** Tokens that do not assign a member leave it as it was. *)
Lemma ParseArgsRaw_loop_frame (m : member) (toks : list string) (r : Args) :
  Forall (fun t => assigns m t = false) toks ->
  exists r' l, ParseArgsRaw_loop r toks = (Returned r', l)
               /\ same_member m r r'.
Proof.
  intros H; revert r; induction H as [|arg toks Harg _ IH]; intros r; simpl.
  - eexists _, _; split; [reflexivity|]. destruct m; reflexivity.
  - destruct (ParseArg_dispatch arg) as (f & l & D & Hf).
    rewrite Hf, bind_returned.
    destruct (IH (f r)) as (r' & l' & -> & Hsame).
    eexists _, _; split; [reflexivity|].
    eapply same_member_trans; [|exact Hsame].
    eapply dispatch_frame; eauto.
Qed.

(** The last occurrence of a flag decides the member. *)
Lemma ParseArgsRaw_loop_last (m : member) (pre post : list string)
  (tok : string) (r : Args) :
  assigns m tok = true ->
  Forall (fun t => assigns m t = false) post ->
  exists r' l, ParseArgsRaw_loop r (pre ++ tok :: post) = (Returned r', l)
               /\ holds_value_of m tok r'.
Proof.
  intros Htok Hpost; revert r; induction pre as [|arg pre IH]; intros r; simpl.
  - destruct (ParseArg_dispatch tok) as (f & l & D & Hf).
    rewrite Hf, bind_returned.
    destruct (ParseArgsRaw_loop_frame m (f r) Hpost) as (r' & l' & -> & Hsame).
    eexists _, _; split; [reflexivity|].
    eapply holds_value_of_transfer; [exact Hsame|].
    eapply dispatch_assigns; eauto.
  - destruct (ParseArg_dispatch arg) as (f & l & D & Hf).
    rewrite Hf, bind_returned.
    destruct (IH (f r)) as (r' & l' & -> & Hv). now eexists _, _.
Qed.

Lemma dispatch_same_checked (arg : string) f l (a b : Args) :
  dispatch arg f l -> same_checked a b -> same_checked (f a) (f b).
Proof.
  unfold same_checked; intros D H; destruct D; simpl; intuition congruence.
Qed.

(** Run from two records that agree on the checked members, the loop logs
    the same lines and ends in records that agree on them again. *)
Lemma ParseArgsRaw_loop_same_checked (toks : list string) (a b : Args) :
  same_checked a b ->
  exists a' b' l,
    ParseArgsRaw_loop a toks = (Returned a', l)
    /\ ParseArgsRaw_loop b toks = (Returned b', l)
    /\ same_checked a' b'.
Proof.
  revert a b; induction toks as [|arg toks IH]; intros a b H; simpl.
  - now eexists _, _, _.
  - destruct (ParseArg_dispatch arg) as (f & l & D & Hf).
    rewrite !Hf, !bind_returned.
    destruct (IH (f a) (f b)) as (a' & b' & l' & -> & -> & H');
      [eapply dispatch_same_checked; eauto|].
    now eexists _, _, _.
Qed.

(** Dropping one token whose update is unchecked changes no checked
    member of the record the dispatcher ends with. *)
Lemma ParseArgsRaw_loop_drop (pre post : list string) (tok : string) f l
  (r : Args) :
  (forall r0, ParseArg r0 tok = (Returned (f r0), l)) ->
  unchecked_update f ->
  exists a la b lb,
    ParseArgsRaw_loop r (pre ++ tok :: post) = (Returned a, la)
    /\ ParseArgsRaw_loop r (pre ++ post) = (Returned b, lb)
    /\ same_checked a b.
Proof.
  intros Htok Hf; revert r; induction pre as [|arg pre IH]; intros r; simpl.
  - rewrite Htok, bind_returned.
    destruct (ParseArgsRaw_loop_same_checked post
                (same_checked_sym (Hf r))) as (a & b & l0 & -> & -> & H).
    now eexists _, _, _, _.
  - destruct (ParseArg_dispatch arg) as (g & lg & Dg & Hg).
    rewrite !Hg, !bind_returned.
    destruct (IH (g r)) as (a & la & b & lb & -> & -> & H).
    now eexists _, _, _, _.
Qed.

End RawLoop.

(* ===================================================================== *)
(** * Validator *)
(* ===================================================================== *)

Section Validator.
Context {env : Env}.

Lemma outside_range (lo hi v : Z) :
  ((v <? lo)%Z || (v >? hi)%Z) = negb ((lo <=? v)%Z && (v <=? hi)%Z).
Proof.
  rewrite Z.gtb_ltb.
  destruct (Z.ltb_spec v lo), (Z.ltb_spec hi v), (Z.leb_spec lo v),
    (Z.leb_spec v hi); simpl; try reflexivity; lia.
Qed.

(** The code is the rule table of the specification, evaluated in order
    up to the first failing rule. *)
Lemma ValidateArgs_rules (a : Args) :
  ValidateArgs a = first_failing validator_rules a.
Proof.
  unfold ValidateArgs, validator_rules, first_failing, holds, error_line,
    bind, spdlog, ret.
  cbn [fails diagnostic app].
  destruct (has_value (output_path a) && is_empty (input_paths a));
    [reflexivity|].
  destruct (output_path a) as [out|]; cbn [has_value andb].
  - destruct (negb (IsExtensionSupported out)); [reflexivity|].
    destruct (run_gui a); [reflexivity|].
    destruct (match_threshold a) as [t|];
      [destruct (t =? 0)%Z; [reflexivity|];
       rewrite <- outside_range;
       destruct ((t <? kMinMatchThreshold)%Z || (t >? kMaxMatchThreshold)%Z);
       [reflexivity|]|];
    (destruct (min_shift a) as [s|];
      [destruct (float_lt s kMinShiftInPano || float_lt kMaxShiftInPano s);
       [reflexivity|]|]);
    (destruct (jpeg_quality a) as [j|];
      [rewrite <- outside_range;
       destruct ((j <? 0)%Z || (j >? kMaxJpegQuality)%Z); [reflexivity|]|]);
    (destruct (png_compression a) as [c|];
      [rewrite <- outside_range;
       destruct ((c <? 0)%Z || (c >? kMaxPngCompression)%Z); [reflexivity|]|]);
    (destruct (max_pano_mpx a) as [x|];
      [rewrite <- outside_range;
       destruct ((x <? 1)%Z || (x >? 5000)%Z); reflexivity|reflexivity]).
  - destruct (match_threshold a) as [t|];
      [destruct (t =? 0)%Z; [reflexivity|];
       rewrite <- outside_range;
       destruct ((t <? kMinMatchThreshold)%Z || (t >? kMaxMatchThreshold)%Z);
       [reflexivity|]|];
    (destruct (min_shift a) as [s|];
      [destruct (float_lt s kMinShiftInPano || float_lt kMaxShiftInPano s);
       [reflexivity|]|]);
    (destruct (jpeg_quality a) as [j|];
      [rewrite <- outside_range;
       destruct ((j <? 0)%Z || (j >? kMaxJpegQuality)%Z); [reflexivity|]|]);
    (destruct (png_compression a) as [c|];
      [rewrite <- outside_range;
       destruct ((c <? 0)%Z || (c >? kMaxPngCompression)%Z); [reflexivity|]|]);
    (destruct (max_pano_mpx a) as [x|];
      [rewrite <- outside_range;
       destruct ((x <? 1)%Z || (x >? 5000)%Z); reflexivity|reflexivity]).
Qed.

(** What evaluating a rule table gives: either every rule passes and
    nothing is logged, or the table splits at its first failing rule,
    whose diagnostic is the one line logged. *)
Lemma first_failing_cases (rules : list rule) (a : Args) :
  (Forall (fun q => fails q a = false) rules
   /\ first_failing rules a = (Returned true, []))
  \/ (exists earlier r later,
        rules = earlier ++ r :: later
        /\ Forall (fun q => fails q a = false) earlier
        /\ fails r a = true
        /\ first_failing rules a = (Returned false, [diagnostic r a])).
Proof.
  induction rules as [|r rules IH]; simpl.
  - left; split; [constructor | reflexivity].
  - destruct (fails r a) eqn:Hr.
    + right. exists [], r, rules. repeat split; auto.
    + destruct IH as [[Hall He]|(earlier & q & later & -> & Hall & Hq & He)].
      * left; split; [now constructor | exact He].
      * right. exists (r :: earlier), q, later.
        repeat split; auto.
Qed.

Lemma ValidateArgs_returns (a : Args) :
  exists valid l, ValidateArgs a = (Returned valid, l).
Proof.
  rewrite ValidateArgs_rules.
  destruct (first_failing_cases validator_rules a)
    as [[_ ->]|(? & ? & ? & _ & _ & _ & ->)]; now eexists _, _.
Qed.

(** A record the validator accepts passes every rule. *)
Lemma ValidateArgs_accepts (a : Args) :
  fst (ValidateArgs a) = Returned true ->
  Forall (fun q => fails q a = false) validator_rules.
Proof.
  rewrite ValidateArgs_rules.
  destruct (first_failing_cases validator_rules a)
    as [[H _]|(? & ? & ? & _ & _ & _ & ->)]; [auto | discriminate].
Qed.

(** The validator reads the checked members only. *)
Lemma ValidateArgs_same_checked (a b : Args) :
  same_checked a b -> ValidateArgs a = ValidateArgs b.
Proof.
  unfold same_checked, ValidateArgs.
  intros (-> & -> & -> & -> & -> & -> & -> & ->). reflexivity.
Qed.

End Validator.

(* ===================================================================== *)
(** * Directory expander *)
(* ===================================================================== *)

Section Expander.
Context {env : Env}.

Lemma bind_eval_returned {A B : Type} (a : A) (k : A -> M B) :
  bind (eval (Returned a)) k = k a.
Proof. unfold bind, eval. now destruct (k a). Qed.

Lemma bind_eval_thrown {A B : Type} (e : exception) (k : A -> M B) :
  bind (eval (Thrown e)) k = (Thrown e, []).
Proof. reflexivity. Qed.

Lemma bind_spdlog {B : Type} lv f args (k : unit -> M B) :
  bind (spdlog lv f args) k
  = (fst (k tt), {| lvl := lv; fmt := f; fmt_args := args |} :: snd (k tt)).
Proof. unfold bind, spdlog. now destruct (k tt). Qed.

Lemma push_regular_files_readable (entries : list directory_entry)
  (result : list path) :
  Forall entry_readable entries ->
  push_regular_files entries result
  = (Returned (result ++ regular_children entries), []).
Proof.
  intros H; revert result; induction H as [|e entries [b Hb] _ IH];
    intros result; cbn [push_regular_files].
  - unfold ret, regular_children; simpl. now rewrite app_nil_r.
  - rewrite Hb, bind_eval_returned, IH.
    unfold regular_children; simpl; rewrite Hb.
    destruct b; simpl; [now rewrite <- app_assoc | reflexivity].
Qed.

Lemma ExpandDirectories_loop_readable {fs : FileSystem} (paths : list path)
  (result : list path) :
  Forall readable paths ->
  ExpandDirectories_loop paths result
  = (Returned (result ++ flat_map expand_entry paths),
     map expanding_line (filter is_directory_true paths)).
Proof.
  intros H; revert result; induction H as [|p paths Hp _ IH];
    intros result; cbn [ExpandDirectories_loop flat_map filter map].
  - unfold ret. now rewrite app_nil_r.
  - unfold expand_entry at 1, is_directory_true at 1.
    destruct Hp as [Hd|(Hd & entries & He & Hr)]; rewrite Hd.
    + rewrite bind_eval_returned, IH; simpl.
      now rewrite <- app_assoc.
    + rewrite He, bind_eval_returned, bind_spdlog, bind_eval_returned.
      rewrite (push_regular_files_readable _ Hr), bind_returned, IH; simpl.
      now rewrite <- app_assoc.
Qed.

(** The expander asks the file system about the listed paths only. *)
Lemma ExpandDirectories_loop_local (fs1 fs2 : FileSystem) (paths : list path)
  (result : list path) :
  (forall p, In p paths ->
             @is_directory fs1 p = @is_directory fs2 p
             /\ @directory_iterator fs1 p = @directory_iterator fs2 p) ->
  @ExpandDirectories_loop env fs1 paths result
  = @ExpandDirectories_loop env fs2 paths result.
Proof.
  revert result; induction paths as [|p paths IH]; intros result H;
    cbn [ExpandDirectories_loop].
  - reflexivity.
  - destruct (H p (or_introl eq_refl)) as [-> ->].
    assert (IH' := fun r => IH r (fun q Hq => H q (or_intror Hq))).
    destruct (@is_directory fs2 p) as [[|]|e];
      rewrite ?bind_eval_returned, ?bind_eval_thrown; auto.
    rewrite !bind_spdlog. f_equal; [f_equal|f_equal; f_equal].
    all: destruct (@directory_iterator fs2 p) as [entries|e];
      rewrite ?bind_eval_returned, ?bind_eval_thrown; auto;
      destruct (push_regular_files entries result) as [[r|e] l];
      unfold bind; rewrite ?IH'; reflexivity.
Qed.

End Expander.

(* ===================================================================== *)
(** * Sorting *)
(* ===================================================================== *)

Section Sorting.
Context {env : Env}.

Lemma sort_insert_permutation (x : path) (l : list path) :
  Permutation (sort_insert x l) (x :: l).
Proof.
  induction l as [|y t IH]; simpl; [reflexivity|].
  destruct (path_lt y x); [|reflexivity].
  rewrite IH. apply perm_swap.
Qed.

(** Sorting rearranges: every path is kept, as often as it occurs. *)
Lemma std_sort_permutation (l : list path) : Permutation (std_sort l) l.
Proof.
  induction l as [|x t IH]; simpl; [reflexivity|].
  rewrite sort_insert_permutation. now constructor.
Qed.


Lemma std_sort_nil (l : list path) : std_sort l = [] -> l = [].
Proof.
  intros H. apply Permutation_nil. rewrite <- H.
  apply std_sort_permutation.
Qed.



Section StrictTotalOrder.

Hypothesis path_lt_asym :
  forall a b, path_lt a b = true -> path_lt b a = false.
Hypothesis path_lt_trans :
  forall a b c, path_lt a b = true -> path_lt b c = true -> path_lt a c = true.
Hypothesis path_lt_total :
  forall a b, path_lt a b = false -> path_lt b a = false -> a = b.






End StrictTotalOrder.

End Sorting.

(** The character-by-character order of the sample platform is a strict
    total order. *)
Section SampleOrder.






End SampleOrder.

(* ===================================================================== *)
(** * Driver *)
(* ===================================================================== *)

Section Driver.
Context {env : Env} {fs : FileSystem}.

(** Once the dispatcher has returned, [ParseArgs] is the rest of the
    pipeline run on its record; the handler of the [try] block is never
    entered, since the dispatcher does not throw. *)
Lemma ParseArgs_after (argv : list string) (raw : Args) (l : list log_line) :
  ParseArgsRaw argv = (Returned raw, l) ->
  ParseArgs argv = (fst (after_dispatch raw), l ++ snd (after_dispatch raw)).
Proof.
  intros H. unfold ParseArgs. rewrite H. unfold try_.
  rewrite bind_returned. reflexivity.
Qed.

Lemma after_dispatch_thrown (raw : Args) e le :
  ExpandDirectories (input_paths raw) = (Thrown e, le) ->
  after_dispatch raw = (Thrown e, le).
Proof. intros H. unfold after_dispatch. now rewrite H. Qed.

Lemma after_dispatch_unsupported (raw : Args) expanded le :
  ExpandDirectories (input_paths raw) = (Returned expanded, le) ->
  expanded <> [] -> KeepSupported expanded = [] ->
  after_dispatch raw
  = (Returned None, le ++ [error_line "No supported images provided!" []]).
Proof.
  intros H Hne Hk. unfold after_dispatch. rewrite H, bind_returned.
  cbn [input_paths set_input_paths]. rewrite Hk.
  destruct expanded; [congruence|]. reflexivity.
Qed.

Lemma after_dispatch_validated (raw : Args) expanded le valid lv :
  ExpandDirectories (input_paths raw) = (Returned expanded, le) ->
  KeepSupported expanded <> [] \/ expanded = [] ->
  ValidateArgs (set_input_paths raw (std_sort (KeepSupported expanded)))
  = (Returned valid, lv) ->
  after_dispatch raw
  = (Returned (if valid
               then Some (set_input_paths raw
                            (std_sort (KeepSupported expanded)))
               else None),
     le ++ lv).
Proof.
  intros H Hk Hv. unfold after_dispatch. rewrite H, bind_returned.
  cbn [input_paths set_input_paths].
  assert (Hc : is_empty (KeepSupported expanded) && negb (is_empty expanded)
               = false).
  { destruct Hk as [Hk| ->]; [|reflexivity].
    destruct (KeepSupported expanded); [congruence | reflexivity]. }
  rewrite Hc.
  change (set_input_paths _ (std_sort (KeepSupported expanded)))
    with (set_input_paths raw (std_sort (KeepSupported expanded))).
  rewrite Hv, bind_returned.
  destruct valid; simpl; rewrite app_nil_r; reflexivity.
Qed.

(** The three ways [ParseArgs] can end, read off the stages. *)
Lemma after_dispatch_cases (raw : Args) :
  (exists e le, ExpandDirectories (input_paths raw) = (Thrown e, le)
                /\ after_dispatch raw = (Thrown e, le))
  \/ (exists expanded le,
        ExpandDirectories (input_paths raw) = (Returned expanded, le)
        /\ expanded <> [] /\ KeepSupported expanded = []
        /\ after_dispatch raw
           = (Returned None,
              le ++ [error_line "No supported images provided!" []]))
  \/ (exists expanded le valid lv,
        ExpandDirectories (input_paths raw) = (Returned expanded, le)
        /\ (KeepSupported expanded <> [] \/ expanded = [])
        /\ ValidateArgs (set_input_paths raw
                           (std_sort (KeepSupported expanded)))
           = (Returned valid, lv)
        /\ after_dispatch raw
           = (Returned (if valid
                        then Some (set_input_paths raw
                                     (std_sort (KeepSupported expanded)))
                        else None),
              le ++ lv)).
Proof.
  destruct (ExpandDirectories (input_paths raw)) as [[expanded|e] le] eqn:He.
  - destruct (KeepSupported expanded) as [|k ks] eqn:Hk.
    + destruct expanded as [|x xs] eqn:Hx.
      * right; right.
        destruct (ValidateArgs_returns
                    (set_input_paths raw (std_sort (KeepSupported []))))
          as (valid & lv & Hv).
        exists [], le, valid, lv. repeat split; auto.
        eapply after_dispatch_validated; eauto.
      * right; left. exists (x :: xs), le. repeat split; auto; try congruence.
        eapply after_dispatch_unsupported; eauto; congruence.
    + right; right.
      destruct (ValidateArgs_returns
                  (set_input_paths raw (std_sort (KeepSupported expanded))))
        as (valid & lv & Hv).
      exists expanded, le, valid, lv.
      assert (KeepSupported expanded <> []) by congruence.
      repeat split; auto.
      eapply after_dispatch_validated; eauto.
  - left. exists e, le. split; auto. now apply after_dispatch_thrown.
Qed.

(** The stages after the dispatcher read the checked members only. *)
Lemma after_dispatch_same_checked (a b : Args) :
  same_checked a b ->
  same_outcome (after_dispatch a) (after_dispatch b)
  /\ snd (after_dispatch a) = snd (after_dispatch b).
Proof.
  intros H.
  assert (Hp : input_paths a = input_paths b) by apply H.
  assert (Hs : forall l, same_checked (set_input_paths a l)
                                      (set_input_paths b l)).
  { intros l. unfold same_checked in *; simpl; intuition. }
  unfold same_outcome.
  destruct (after_dispatch_cases a)
    as [(e & le & He & ->)
       |[(ex & le & He & Hne & Hk & ->)
        |(ex & le & valid & lv & He & Hk & Hv & ->)]];
    rewrite Hp in He.
  - now rewrite (after_dispatch_thrown b He).
  - now rewrite (after_dispatch_unsupported b He Hne Hk).
  - rewrite (ValidateArgs_same_checked (Hs _)) in Hv.
    rewrite (after_dispatch_validated b He Hk Hv).
    destruct valid; simpl; auto.
Qed.

End Driver.

(* ===================================================================== *)
(** * Properties of the specification *)
(* ===================================================================== *)

Section Invariants.
Context {env : Env} {fs : FileSystem}.

(** A successful [ParseArgs] went through every stage: the record is the
    dispatcher's, with the sorted supported paths, and the validator
    accepted it. *)
Lemma ParseArgs_success (argv : list string) (r : Args) (l : list log_line) :
  ParseArgs argv = (Returned (Some r), l) ->
  exists raw lraw expanded lexp,
    ParseArgsRaw argv = (Returned raw, lraw)
    /\ ExpandDirectories (input_paths raw) = (Returned expanded, lexp)
    /\ (KeepSupported expanded <> [] \/ expanded = [])
    /\ r = set_input_paths raw (std_sort (KeepSupported expanded))
    /\ ValidateArgs r = (Returned true, [])
    /\ l = lraw ++ lexp.
Proof.
  intros H. destruct (ParseArgsRaw_returns argv) as (raw & lraw & Hraw).
  rewrite (ParseArgs_after _ Hraw) in H.
  destruct (after_dispatch_cases raw)
    as [(e & le & He & Ha)
       |[(ex & le & He & Hne & Hk & Ha)
        |(ex & le & valid & lv & He & Hk & Hv & Ha)]];
    rewrite Ha in H; simpl in H; try discriminate.
  destruct valid; [|discriminate].
  injection H as <- <-.
  assert (lv = []) as ->.
  { rewrite ValidateArgs_rules in Hv.
    destruct (first_failing_cases validator_rules
                (set_input_paths raw (std_sort (KeepSupported ex))))
      as [[_ Hf]|(? & ? & ? & _ & _ & _ & Hf)]; congruence. }
  exists raw, lraw, ex, le. rewrite app_nil_r. repeat split; auto.
Qed.

(** What the validator's acceptance says of the members it checks. *)
Lemma accepted_bounds (a : Args) :
  fst (ValidateArgs a) = Returned true ->
  (has_value (output_path a) = true ->
   input_paths a <> [] /\ run_gui a = false)
  /\ (forall v, match_threshold a = Some v ->
                (kMinMatchThreshold <= v <= kMaxMatchThreshold)%Z)
  /\ (forall v, min_shift a = Some v ->
                float_lt v kMinShiftInPano = false
                /\ float_lt kMaxShiftInPano v = false)
  /\ (forall v, jpeg_quality a = Some v -> (0 <= v <= kMaxJpegQuality)%Z)
  /\ (forall v, png_compression a = Some v ->
                (0 <= v <= kMaxPngCompression)%Z)
  /\ (forall v, max_pano_mpx a = Some v -> (1 <= v <= 5000)%Z).
Proof.
  intros H. apply ValidateArgs_accepts in H. unfold validator_rules in H.
  apply Forall_cons_iff in H as [R1 H]. apply Forall_cons_iff in H as [R2 H].
  apply Forall_cons_iff in H as [R3 H]. apply Forall_cons_iff in H as [R4 H].
  apply Forall_cons_iff in H as [R5 H]. apply Forall_cons_iff in H as [R6 H].
  apply Forall_cons_iff in H as [R7 H]. apply Forall_cons_iff in H as [R8 H].
  apply Forall_cons_iff in H as [R9 _].
  cbn [fails] in *.
  split; [|split; [|split; [|split; [|split]]]].
  - intros Hout. destruct (output_path a); [|discriminate].
    cbn [has_value andb] in *.
    destruct (input_paths a); [discriminate|]. split; congruence.
  - intros v Hv. rewrite Hv in R5.
    apply negb_false_iff, andb_true_iff in R5. lia.
  - intros v Hv. rewrite Hv in R6. now apply orb_false_iff in R6.
  - intros v Hv. rewrite Hv in R7.
    apply negb_false_iff, andb_true_iff in R7. lia.
  - intros v Hv. rewrite Hv in R8.
    apply negb_false_iff, andb_true_iff in R8. lia.
  - intros v Hv. rewrite Hv in R9.
    apply negb_false_iff, andb_true_iff in R9. lia.
Qed.


End Invariants.


Section ValidatorOrder.
Context {env : Env}.

Lemma validator_rules_log_errors (r : rule) (a : Args) :
  In r validator_rules -> lvl (diagnostic r a) = error.
Proof.
  unfold validator_rules; simpl.
  intros H; repeat (destruct H as [<-|H]; [reflexivity|]); contradiction.
Qed.

(** C2. The validator is the table of nine rules of the specification
    evaluated in the listed order over the assembled record: it stops at
    the first rule that fails and logs the diagnostic of that rule and
    nothing else (and logs nothing when every rule passes). The
    falsy-sentinel rule of [match_threshold] (it fails exactly when the
    value is zero) stands before the range rule, so a zero threshold is
    rejected with the sentinel's diagnostic whatever the configured
    bounds are, and [--match-threshold=0] alone makes [ParseArgs] fail
    with that diagnostic. *)
Theorem ValidateArgs_first_failing_rule (a : Args) :
  ValidateArgs a = first_failing validator_rules a
  /\ ((Forall (fun q => fails q a = false) validator_rules
       /\ ValidateArgs a = (Returned true, []))
      \/ (exists earlier r later,
            validator_rules = earlier ++ r :: later
            /\ Forall (fun q => fails q a = false) earlier
            /\ fails r a = true
            /\ ValidateArgs a = (Returned false, [diagnostic r a])
            /\ lvl (diagnostic r a) = error))
  /\ (forall v, match_threshold a = Some v ->
                fails (nth 3 validator_rules
                         {| fails := fun _ => false;
                            diagnostic := fun _ => error_line "" [] |}) a
                = (v =? 0)%Z)
  /\ (has_value (output_path a) = false ->
      match_threshold a = Some 0%Z ->
      ValidateArgs a
      = (Returned false,
         [error_line "Invalid value for --match-threshold" []]))
  /\ (forall (fs : FileSystem) (prog : string),
        ParseArgs [prog; "--match-threshold=0"]
        = (Returned None,
           [error_line "Invalid value for --match-threshold" []])).
Proof.
  split; [apply ValidateArgs_rules|].
  split; [|split; [|split]].
  - rewrite ValidateArgs_rules.
    destruct (first_failing_cases validator_rules a)
      as [[Hall He]|(earlier & r & later & Hsplit & Hall & Hr & He)].
    + left; split; assumption.
    + right. exists earlier, r, later. repeat split; auto.
      apply validator_rules_log_errors. rewrite Hsplit.
      apply in_or_app; right; now left.
  - intros v Hv. simpl. now rewrite Hv.
  - intros Hout Hmt. rewrite ValidateArgs_rules.
    unfold validator_rules, first_failing; cbn [fails diagnostic].
    destruct (output_path a); [discriminate|].
    rewrite Hmt. reflexivity.
  - intros fs prog. reflexivity.
Qed.

End ValidatorOrder.

Section ExtensionFilter.
Context {env : Env} {fs : FileSystem}.

(** C3. When the expanded positional paths are not empty and none of them
    has a supported extension, [ParseArgs] fails with the diagnostic
    [No supported images provided!]. When the expanded sequence is empty
    that check does not fire: the outcome is the validator's verdict on
    the record with no input paths, so a command line such as [--help]
    with no file is accepted. *)
Theorem no_supported_images_failure (argv : list string) (raw : Args)
  (lraw : list log_line) (expanded : list path) (lexp : list log_line) :
  ParseArgsRaw argv = (Returned raw, lraw) ->
  ExpandDirectories (input_paths raw) = (Returned expanded, lexp) ->
  (expanded <> [] -> KeepSupported expanded = [] ->
   ParseArgs argv
   = (Returned None,
      lraw ++ lexp ++ [error_line "No supported images provided!" []]))
  /\ (expanded = [] ->
      exists valid lv,
        ValidateArgs (set_input_paths raw []) = (Returned valid, lv)
        /\ ParseArgs argv
           = (Returned (if valid then Some (set_input_paths raw []) else None),
              lraw ++ lexp ++ lv))
  /\ (forall prog : string,
        ParseArgs [prog; kHelpFlag]
        = (Returned (Some (set_print_help default_Args true)), [])).
Proof.
  intros Hraw Hexp. rewrite (ParseArgs_after _ Hraw).
  split; [|split].
  - intros Hne Hk.
    now rewrite (after_dispatch_unsupported raw Hexp Hne Hk).
  - intros ->.
    destruct (ValidateArgs_returns (set_input_paths raw []))
      as (valid & lv & Hv).
    exists valid, lv. split; [exact Hv|].
    now rewrite (@after_dispatch_validated env fs raw [] lexp valid lv
                   Hexp (or_intror eq_refl) Hv).
  - intros prog. reflexivity.
Qed.

End ExtensionFilter.

Lemma no_supported_images_failure_witness :
  @ParseArgs sample_env sample_fs ["xpano"; "notes.txt"; "--help"]
  = (Returned None, [error_line "No supported images provided!" []]).
Proof.
  refine (proj1 (@no_supported_images_failure sample_env sample_fs
                   ["xpano"; "notes.txt"; "--help"]
                   (set_print_help
                      (set_input_paths default_Args ["notes.txt"]) true)
                   [] ["notes.txt"] [] _ _) _ _);
    [reflexivity | reflexivity | discriminate | reflexivity].
Defined.

Section EscapingErrors.
Context {env : Env} {fs : FileSystem}.

Lemma dispatch_logs_warnings (arg : string) f (l : list log_line) :
  dispatch arg f l -> errors_logged l = [].
Proof. intros D; destruct D; reflexivity. Qed.

Lemma errors_logged_app (l1 l2 : list log_line) :
  errors_logged (l1 ++ l2) = errors_logged l1 ++ errors_logged l2.
Proof. apply filter_app. Qed.

Lemma ParseArgsRaw_loop_logs_no_error (toks : list string) (r r' : Args)
  (l : list log_line) :
  ParseArgsRaw_loop r toks = (Returned r', l) -> errors_logged l = [].
Proof.
  revert r l; induction toks as [|arg toks IH]; intros r l; simpl.
  - unfold ret; intros H; inversion H; reflexivity.
  - destruct (ParseArg_dispatch arg) as (f & la & D & Hf).
    rewrite Hf, bind_returned.
    destruct (ParseArgsRaw_loop (f r) toks) as [[r1|e] l1] eqn:Hl;
      simpl; intros H; inversion H; subst.
    rewrite errors_logged_app, (dispatch_logs_warnings D).
    eapply IH; eauto.
Qed.

Lemma push_regular_files_logs_nothing (entries : list directory_entry)
  (result : list path) :
  snd (push_regular_files entries result) = [].
Proof.
  revert result; induction entries as [|e entries IH]; intros result;
    cbn [push_regular_files]; [reflexivity|].
  destruct (is_regular_file e) as [b|x];
    [rewrite bind_eval_returned; apply IH | reflexivity].
Qed.

Lemma ExpandDirectories_loop_logs_no_error (paths : list path)
  (result : list path) :
  errors_logged (snd (ExpandDirectories_loop paths result)) = [].
Proof.
  revert result; induction paths as [|p paths IH]; intros result;
    cbn [ExpandDirectories_loop]; [reflexivity|].
  destruct (is_directory p) as [[|]|x];
    rewrite ?bind_eval_returned, ?bind_eval_thrown; auto.
  rewrite bind_spdlog. cbn [snd errors_logged filter lvl].
  destruct (directory_iterator p) as [entries|x];
    rewrite ?bind_eval_returned, ?bind_eval_thrown; auto.
  pose proof (push_regular_files_logs_nothing entries result) as Hp.
  destruct (push_regular_files entries result) as [[r|x] l]; simpl in Hp;
    subst l; [rewrite bind_returned; simpl; apply IH | reflexivity].
Qed.

(** Every failure [ParseArgs] returns comes with exactly one line on the
    error channel. *)
Lemma ParseArgs_failure_logs_one_error (argv : list string)
  (l : list log_line) :
  ParseArgs argv = (Returned None, l) ->
  exists line, errors_logged l = [line].
Proof.
  intros H. destruct (ParseArgsRaw_returns argv) as (raw & lraw & Hraw).
  rewrite (ParseArgs_after _ Hraw) in H.
  pose proof (ParseArgsRaw_loop_logs_no_error _ _ Hraw) as Hlr.
  pose proof (ExpandDirectories_loop_logs_no_error (input_paths raw) [])
    as Hle.
  fold (ExpandDirectories (input_paths raw)) in Hle.
  destruct (after_dispatch_cases raw)
    as [(e & le & He & Ha)
       |[(ex & le & He & Hne & Hk & Ha)
        |(ex & le & valid & lv & He & Hk & Hv & Ha)]];
    rewrite Ha in H; rewrite He in Hle; simpl in H, Hle;
    inversion H; subst; clear H;
    rewrite !errors_logged_app, Hlr, Hle; simpl.
  - now eexists.
  - destruct valid; [discriminate|].
    rewrite ValidateArgs_rules in Hv.
    destruct (first_failing_cases validator_rules
                (set_input_paths raw (std_sort (KeepSupported ex))))
      as [[_ Hf]|(earlier & q & later & Hs & _ & _ & Hf)];
      rewrite Hf in Hv; inversion Hv; subst.
    simpl. rewrite validator_rules_log_errors; [now eexists|].
    rewrite Hs. apply in_or_app; right; now left.
Qed.

(** C4. A file-system error raised while a directory is enumerated ought
    to become a failure of the parse, with one logged diagnostic, as an
    exception of the dispatcher does. The code does not do so: the
    expansion is called outside the [try] block, so an exception thrown
    there leaves [ParseArgs] uncaught, no result is returned and nothing
    has been written to the error channel. *)
Theorem directory_error_escapes (argv : list string) (raw : Args)
  (lraw : list log_line) (e : exception) (le : list log_line) :
  ParseArgsRaw argv = (Returned raw, lraw) ->
  ExpandDirectories (input_paths raw) = (Thrown e, le) ->
  ParseArgs argv = (Thrown e, lraw ++ le)
  /\ errors_logged (lraw ++ le) = [].
Proof.
  intros Hraw He. split.
  - rewrite (ParseArgs_after _ Hraw).
    now rewrite (after_dispatch_thrown raw He).
  - rewrite errors_logged_app.
    rewrite (ParseArgsRaw_loop_logs_no_error _ _ Hraw).
    pose proof (ExpandDirectories_loop_logs_no_error (input_paths raw) [])
      as Hle.
    fold (ExpandDirectories (input_paths raw)) in Hle.
    now rewrite He in Hle.
Qed.

End EscapingErrors.

Lemma directory_error_escapes_witness :
  @ParseArgs sample_env sample_fs ["xpano"; "locked"]
  = (Thrown (std_exception "filesystem error: cannot open directory"),
     [expanding_line "locked"]).
Proof.
  refine (proj1 (@directory_error_escapes sample_env sample_fs
                   ["xpano"; "locked"]
                   (set_input_paths default_Args ["locked"]) []
                   (std_exception "filesystem error: cannot open directory")
                   [expanding_line "locked"] _ _));
    reflexivity.
Defined.

Section OneLevelExpansion.
Context {env : Env} {fs : FileSystem}.

(** C5 (as amended). Directory expansion is one level deep. When the
    file-system calls return, every positional path that is a directory
    is replaced, in place, by the paths of the regular files among its
    immediate children, in enumeration order: a nested subdirectory is
    neither entered nor kept, the test for a regular file drops it during
    the expansion itself. A path that is not a directory passes through
    unchanged, one informational line is logged per expanded directory,
    and the result depends on the file system only through the answers
    for the listed paths themselves. *)
Theorem ExpandDirectories_one_level (paths : list path) :
  Forall readable paths ->
  ExpandDirectories paths
  = (Returned (flat_map expand_entry paths),
     map expanding_line (filter is_directory_true paths))
  /\ (forall p, In p paths -> is_directory p = Returned false ->
                expand_entry p = [p])
  /\ (forall fs' : FileSystem,
        (forall p, In p paths ->
                   @is_directory fs' p = is_directory p
                   /\ @directory_iterator fs' p = directory_iterator p) ->
        @ExpandDirectories env fs' paths = ExpandDirectories paths).
Proof.
  intros H. split; [|split].
  - unfold ExpandDirectories.
    now rewrite (ExpandDirectories_loop_readable [] H).
  - intros p _ Hp. unfold expand_entry. now rewrite Hp.
  - intros fs' Hfs. apply ExpandDirectories_loop_local, Hfs.
Qed.

End OneLevelExpansion.

Lemma ExpandDirectories_one_level_witness :
  @ExpandDirectories sample_env sample_fs ["photos"; "z.jpg"]
  = (Returned ["photos/a.jpg"; "photos/b.png"; "photos/notes.txt"; "z.jpg"],
     [expanding_line "photos"]).
Proof.
  refine (proj1 (@ExpandDirectories_one_level sample_env sample_fs
                   ["photos"; "z.jpg"] _)).
  constructor; [right | constructor; [left; reflexivity | constructor]].
  split; [reflexivity|]. eexists; split; [reflexivity|].
  repeat (constructor; [eexists; reflexivity|]). constructor.
Defined.

(** C5 as stated fails: read as keeping every immediate child for the
    extension filter to sort out, the expansion of [photos] would hold
    the subdirectory [photos/raw]; the code has dropped it already. *)
Lemma nested_directory_dropped_by_expander :
  Forall (@readable sample_fs) ["photos"]
  /\ In "photos/raw" (flat_map (@expand_entry_keeping_all sample_fs) ["photos"])
  /\ fst (@ExpandDirectories sample_env sample_fs ["photos"])
     = Returned ["photos/a.jpg"; "photos/b.png"; "photos/notes.txt"]
  /\ fst (@ExpandDirectories sample_env sample_fs ["photos"])
     <> Returned (flat_map (@expand_entry_keeping_all sample_fs) ["photos"]).
Proof.
  split; [|split; [|split]].
  - constructor; [right | constructor].
    split; [reflexivity|]. eexists; split; [reflexivity|].
    repeat (constructor; [eexists; reflexivity|]). constructor.
  - simpl. tauto.
  - reflexivity.
  - discriminate.
Qed.

Section SortedInputs.
Context {env : Env} {fs : FileSystem}.

Hypothesis path_lt_asym :
  forall a b, path_lt a b = true -> path_lt b a = false.
Hypothesis path_lt_trans :
  forall a b c, path_lt a b = true -> path_lt b c = true -> path_lt a c = true.
Hypothesis path_lt_total :
  forall a b, path_lt a b = false -> path_lt b a = false -> a = b.


End SortedInputs.


Section AllOrNothing.
Context {env : Env}.

(** C7 (as amended). The typed value parsers are total and
    all-or-nothing. The integer parser returns a value exactly when the
    whole string is a decimal integer (an optional minus sign, then one
    or more digits, nothing before or after) whose value fits the range
    of [int], and the value returned is the integer denoted. The float
    parser returns a value exactly when [std::stof] converts the string
    and reports that it processed all of it; when [std::stof] throws, the
    parser returns no value and the exception goes no further. *)
Theorem value_parsers_all_or_nothing (str : string) :
  (forall v, ParseInt str = Some v <->
             decimal_integer str = true /\ v = decimal_value str
             /\ (INT_MIN <= v <= INT_MAX)%Z)
  /\ (forall v, ParseFloat str = Some v <->
                stof str = Returned (v, String.length str))
  /\ (forall e, stof str = Thrown e -> ParseFloat str = None).
Proof.
  split; [intros v; apply ParseInt_spec|]. unfold ParseFloat. split.
  - intros v. destruct (stof str) as [[value pos]|e].
    + destruct (Nat.eqb_spec pos (String.length str)) as [->|Hne].
      * split; intros H; inversion H; reflexivity.
      * split; intros H; inversion H; subst; congruence.
    + split; discriminate.
  - intros e ->. reflexivity.
Qed.

End AllOrNothing.

(** C7 as stated fails: [2147483648] is a decimal integer from its first
    character to its last, and the integer parser returns no value for
    it, since the number does not fit an [int]. *)
Lemma ParseInt_out_of_range :
  decimal_integer "2147483648" = true
  /\ ParseInt "2147483648" = None
  /\ ~ (forall str, (exists v, ParseInt str = Some v)
                    <-> decimal_integer str = true).
Proof.
  split; [reflexivity|]. split; [reflexivity|].
  intros H. destruct (proj2 (H "2147483648") eq_refl) as [v Hv].
  discriminate Hv.
Qed.

Section UncheckedTokens.
Context {env : Env} {fs : FileSystem}.

Lemma ParseArgsRaw_cons (prog : string) (toks : list string) :
  ParseArgsRaw (prog :: toks) = ParseArgsRaw_loop default_Args toks.
Proof. reflexivity. Qed.

(** Removing a token whose update no later stage reads does not change
    how [ParseArgs] ends. *)
Lemma ParseArgs_drop_unchecked (prog : string) (pre post : list string)
  (tok : string) f (l : list log_line) :
  (forall r0, ParseArg r0 tok = (Returned (f r0), l)) ->
  unchecked_update f ->
  same_outcome (ParseArgs (prog :: pre ++ tok :: post))
               (ParseArgs (prog :: pre ++ post)).
Proof.
  intros Htok Hf.
  destruct (@ParseArgsRaw_loop_drop env pre post tok f l default_Args Htok Hf)
    as (a & la & b & lb & Ha & Hb & Hsame).
  rewrite <- ParseArgsRaw_cons with (prog := prog) in Ha, Hb.
  rewrite (ParseArgs_after _ Ha), (ParseArgs_after _ Hb).
  apply (after_dispatch_same_checked Hsame).
Qed.

Lemma ParseArg_matching_type (r : Args) (v : string) :
  ParseArg r (kMatchingTypeFlag ++ v)
  = (Returned (set_matching_type r (ParseMatchingType v)),
     if has_value (ParseMatchingType v) then []
     else [matching_type_warning v]).
Proof.
  unfold ParseArg; cbn -[ParseMatchingType].
  replace (String.prefix "" v) with true by (now destruct v).
  destruct (ParseMatchingType v); reflexivity.
Qed.


(** [--help] and [--version] only set their member. *)
Lemma ParseArg_help_version (r : Args) (tok : string) :
  tok = kHelpFlag \/ tok = kVersionFlag ->
  exists f, (forall r0, ParseArg r0 tok = (Returned (f r0), []))
            /\ unchecked_update f
            /\ (print_help (f r) = true \/ print_version (f r) = true).
Proof.
  intros [-> | ->].
  - exists (fun r0 => set_print_help r0 true).
    repeat split; now left.
  - exists (fun r0 => set_print_version r0 true).
    repeat split; now right.
Qed.

Lemma dispatch_keeps_help_version f (arg : string) (l : list log_line)
  (r : Args) :
  dispatch arg f l ->
  print_help r = true \/ print_version r = true ->
  print_help (f r) = true \/ print_version (f r) = true.
Proof. intros D H; destruct D; simpl; tauto. Qed.

Lemma ParseArgsRaw_loop_keeps_help_version (toks : list string) (r : Args) :
  print_help r = true \/ print_version r = true ->
  exists r' l, ParseArgsRaw_loop r toks = (Returned r', l)
               /\ (print_help r' = true \/ print_version r' = true).
Proof.
  revert r; induction toks as [|arg toks IH]; intros r H; simpl.
  - now eexists _, _.
  - destruct (ParseArg_dispatch arg) as (f & l & D & Hf).
    rewrite Hf, bind_returned.
    destruct (IH (f r)) as (r' & l' & -> & H');
      [eapply dispatch_keeps_help_version; eauto|].
    now eexists _, _.
Qed.

Lemma ParseArgsRaw_loop_help_version (pre post : list string) (tok : string)
  (r : Args) :
  tok = kHelpFlag \/ tok = kVersionFlag ->
  exists r' l, ParseArgsRaw_loop r (pre ++ tok :: post) = (Returned r', l)
               /\ (print_help r' = true \/ print_version r' = true).
Proof.
  intros Htok; revert r; induction pre as [|arg pre IH]; intros r; simpl.
  - destruct (ParseArg_help_version r Htok) as (f & Hf & _ & Hset).
    rewrite Hf, bind_returned.
    destruct (ParseArgsRaw_loop_keeps_help_version post _ Hset)
      as (r' & l' & -> & H').
    now eexists _, _.
  - destruct (ParseArg_dispatch arg) as (f & l & D & Hf).
    rewrite Hf, bind_returned.
    destruct (IH (f r)) as (r' & l' & -> & H'). now eexists _, _.
Qed.

(** C10. [--help] and [--version] do not cut the pipeline short. With
    either flag on the command line [ParseArgs] ends as it would without
    it: the dispatcher records the flag, and the expansion, the filter,
    the sort and the validator still run, so [ParseArgs] returns failure
    when the positional paths expand to a non-empty sequence holding no
    supported file, and when the validator rejects the assembled
    record. *)
Theorem help_does_not_short_circuit (prog : string) (pre post : list string)
  (tok : string) :
  tok = kHelpFlag \/ tok = kVersionFlag ->
  same_outcome (ParseArgs (prog :: pre ++ tok :: post))
               (ParseArgs (prog :: pre ++ post))
  /\ exists raw lraw,
       ParseArgsRaw (prog :: pre ++ tok :: post) = (Returned raw, lraw)
       /\ (print_help raw = true \/ print_version raw = true)
       /\ forall expanded lexp,
            ExpandDirectories (input_paths raw) = (Returned expanded, lexp) ->
            (expanded <> [] -> KeepSupported expanded = [] ->
             fst (ParseArgs (prog :: pre ++ tok :: post)) = Returned None)
            /\ (fst (ValidateArgs
                       (set_input_paths raw
                          (std_sort (KeepSupported expanded))))
                = Returned false ->
                fst (ParseArgs (prog :: pre ++ tok :: post)) = Returned None).
Proof.
  intros Htok. split.
  - destruct (ParseArg_help_version default_Args Htok) as (f & Hf & Hu & _).
    eapply ParseArgs_drop_unchecked; eauto.
  - destruct (ParseArgsRaw_loop_help_version pre post default_Args Htok)
      as (raw & lraw & Hraw & Hset).
    rewrite <- ParseArgsRaw_cons with (prog := prog) in Hraw.
    exists raw, lraw. repeat split; auto.
    + intros Hne Hk. rewrite (ParseArgs_after _ Hraw).
      now rewrite (after_dispatch_unsupported raw H Hne Hk).
    + intros Hinvalid. rewrite (ParseArgs_after _ Hraw).
      destruct (after_dispatch_cases raw)
        as [(e & le & He & ->)
           |[(ex & le & He & Hne & Hk & ->)
            |(ex & le & valid & lv & He & Hk & Hv & ->)]];
        rewrite H in He; inversion He; subst; try reflexivity.
      rewrite Hv in Hinvalid; simpl in Hinvalid.
      inversion Hinvalid; subst. reflexivity.
Qed.

End UncheckedTokens.


Lemma help_does_not_short_circuit_witness :
  same_outcome
    (@ParseArgs sample_env sample_fs ["xpano"; "--help"; "notes.txt"])
    (@ParseArgs sample_env sample_fs ["xpano"; "notes.txt"]).
Proof.
  refine (proj1 (@help_does_not_short_circuit sample_env sample_fs
                   "xpano" [] ["notes.txt"] "--help" _)).
  left; reflexivity.
Defined.

Section LastOccurrence.
Context {env : Env}.

Lemma holds_value_of_input_paths (m : member) (tok : string) (r : Args)
  (paths : list path) :
  holds_value_of m tok r -> holds_value_of m tok (set_input_paths r paths).
Proof. destruct m; simpl; auto. Qed.

(** C9. When a flag that assigns a member occurs more than once, the
    last occurrence alone decides the member: whatever came before, the
    member holds the parse of the value of the last occurrence, and is
    unset when that value does not parse, even if an earlier occurrence
    had set it. The same holds for [copy_metadata], where the last of
    [--copy-metadata] and [--no-copy-metadata] decides. The record
    [ParseArgs] returns keeps the member as the dispatcher left it. *)
Theorem last_occurrence_wins (m : member) (prog : string)
  (pre post : list string) (tok : string) :
  assigns m tok = true ->
  Forall (fun t => assigns m t = false) post ->
  (exists r l,
     ParseArgsRaw (prog :: pre ++ tok :: post) = (Returned r, l)
     /\ holds_value_of m tok r)
  /\ (forall (fs : FileSystem) r l,
        ParseArgs (prog :: pre ++ tok :: post) = (Returned (Some r), l) ->
        holds_value_of m tok r).
Proof.
  intros Htok Hpost.
  destruct (@ParseArgsRaw_loop_last env m pre post tok default_Args
              Htok Hpost)
    as (r & l & Hr & Hv).
  rewrite <- ParseArgsRaw_cons with (prog := prog) in Hr.
  split; [now exists r, l|].
  intros fs r' l' H.
  destruct (ParseArgs_success _ H) as (raw & lraw & ex & le & Hraw & _ & _
                                       & -> & _).
  rewrite Hr in Hraw; inversion Hraw; subst.
  now apply holds_value_of_input_paths.
Qed.

End LastOccurrence.

Lemma last_occurrence_wins_witness :
  exists (r : @Args sample_env) l,
    @ParseArgsRaw sample_env
      ["xpano"; "--match-threshold=70"; "--match-threshold=7x"; "a.jpg"]
    = (Returned r, l)
    /\ match_threshold r = None.
Proof.
  refine (proj1 (@last_occurrence_wins sample_env m_match_threshold "xpano"
                   ["--match-threshold=70"] ["a.jpg"]
                   "--match-threshold=7x" _ _)).
  - reflexivity.
  - repeat constructor.
Defined.

(* ===================================================================== *)
(** * The testable properties of the specification, on the sample platform *)
(* ===================================================================== *)

Section SpecificationExamples.

Example output_without_inputs_fails :
  sample_run ["xpano"; "--output=foo.jpg"]
  = (Returned None, [error_line "No supported images provided" []]).
Proof. reflexivity. Qed.

Example unsupported_output_extension_fails :
  sample_run ["xpano"; "--output=foo.xyz"; "img1.jpg"]
  = (Returned None,
     [error_line
        ("Unsupported output file extension: " ++ dquote ++ "{}" ++ dquote)
        [arg_string ".xyz"]]).
Proof. reflexivity. Qed.

Example output_with_gui_fails :
  sample_run ["xpano"; "--output=foo.jpg"; "--gui"; "img1.jpg"]
  = (Returned None,
     [error_line
        "Specifying --gui and --output together is not yet supported." []]).
Proof. reflexivity. Qed.

Example jpeg_quality_above_maximum_fails :
  sample_run ["xpano"; "--jpeg-quality=101"]
  = (Returned None,
     [error_line "--jpeg-quality must be between 0 and {}" [arg_int 100]]).
Proof. reflexivity. Qed.

Example jpeg_quality_at_maximum_accepted :
  succeeded (sample_run ["xpano"; "--jpeg-quality=100"]) = true.
Proof. reflexivity. Qed.

Example directory_with_subdirectory :
  fst (sample_run ["xpano"; "photos"])
  = Returned (Some (set_input_paths default_Args
                      ["photos/a.jpg"; "photos/b.png"])).
Proof. reflexivity. Qed.

Example duplicate_paths_kept :
  fst (sample_run ["xpano"; "img1.jpg"; "img1.jpg"])
  = Returned (Some (set_input_paths default_Args ["img1.jpg"; "img1.jpg"])).
Proof. reflexivity. Qed.

Example partial_float_rejected :
  @ParseFloat sample_env "0.5x" = None
  /\ @ParseFloat sample_env "0.5" = Some (1 # 2).
Proof. split; reflexivity. Qed.

End SpecificationExamples.

(* ===================================================================== *)
(** * Further properties of args.cc *)
(* ===================================================================== *)

Unset Implicit Arguments.

Section EnumResolvers.

(** X1. Each enum resolver is an exact, case-sensitive table: it returns
    a variant for the one literal of that variant and for no other
    string, and every variant has its literal, so each variant can be
    selected and no two literals select the same one. *)
Theorem enum_resolvers_exact :
  (forall s t, ParseProjectionType s = Some t <-> s = projection_literal t)
  /\ (forall s t, ParseWaveCorrectionType s = Some t
                  <-> s = wave_correction_literal t)
  /\ (forall s t, ParseMatchingType s = Some t
                  <-> s = matching_type_literal t).
Proof.
  split; [|split]; intros s t; split;
    try (intros ->; destruct t; reflexivity).
  - unfold ParseProjectionType.
    repeat match goal with
           | |- context [(s =? ?lit)%string] =>
               destruct (String.eqb_spec s lit) as [->|];
               [simpl; intros [= <-]; reflexivity|]
           end.
    intros H; discriminate H.
  - unfold ParseWaveCorrectionType.
    repeat match goal with
           | |- context [(s =? ?lit)%string] =>
               destruct (String.eqb_spec s lit) as [->|];
               [simpl; intros [= <-]; reflexivity|]
           end.
    intros H; discriminate H.
  - unfold ParseMatchingType.
    repeat match goal with
           | |- context [(s =? ?lit)%string] =>
               destruct (String.eqb_spec s lit) as [->|];
               [simpl; intros [= <-]; reflexivity|]
           end.
    intros H; discriminate H.
Qed.

End EnumResolvers.

Section Collecting.
Context {env : Env}.

Lemma starts_with_recognised (arg p : string) :
  In p [kOutputFlag; kProjectionFlag; kMatchingTypeFlag; kMatchThresholdFlag;
        kMinShiftFlag; kJpegQualityFlag; kPngCompressionFlag;
        kWaveCorrectionFlag; kMaxPanoMpxFlag] ->
  starts_with arg p = true -> recognised arg = true.
Proof.
  unfold recognised. cbn [In].
  intros H Hp; repeat (destruct H as [<-|H]; [rewrite Hp;
    rewrite ?orb_true_r; reflexivity|]); contradiction.
Qed.

Lemma ParseArg_log (r : Args) (arg : string) :
  snd (ParseArg r arg) = warning_of arg.
Proof.
  unfold warning_of.
  destruct (starts_with arg kMatchingTypeFlag) eqn:Hm.
  - rewrite (starts_with_split _ _ Hm), ParseArg_matching_type.
    replace (substr _ _) with (substr arg (String.length kMatchingTypeFlag))
      by (now rewrite (starts_with_split _ _ Hm) at 1).
    now destruct (ParseMatchingType _).
  - destruct (ParseArg_dispatch arg) as (f & l & D & Hf). rewrite Hf; simpl.
    destruct D; try reflexivity; congruence.
Qed.

(** What one token does to [input_paths], and that it touches nothing
    else when it is positional. *)
Lemma dispatch_paths (arg : string) f (l : list log_line) (r : Args) :
  dispatch arg f l ->
  input_paths (f r) = input_paths r ++ positionals [arg].
Proof.
  unfold positionals; cbn [filter].
  intros D; destruct D;
    try (subst arg; simpl; now rewrite app_nil_r);
    try (match goal with
         | H : starts_with arg ?p = true |- _ =>
             rewrite (starts_with_recognised arg p
                        ltac:(cbn [In]; auto 12) H)
         end; simpl; now rewrite app_nil_r).
  rewrite H. reflexivity.
Qed.

Lemma dispatch_eq_but_paths (arg : string) f (l : list log_line)
  (a b : Args) :
  dispatch arg f l -> eq_but_paths a b -> eq_but_paths (f a) (f b).
Proof.
  unfold eq_but_paths; intros D H; destruct D; simpl; intuition congruence.
Qed.

Lemma dispatch_positional_eq_but_paths (arg : string) f (l : list log_line)
  (r : Args) :
  dispatch arg f l -> recognised arg = false -> eq_but_paths r (f r).
Proof.
  intros D Hr; destruct D;
    try (subst arg; discriminate Hr);
    try (match goal with
         | H : starts_with arg ?p = true |- _ =>
             rewrite (starts_with_recognised arg p
                        ltac:(cbn [In]; auto 12) H) in Hr
         end; discriminate Hr).
  repeat split.
Qed.

Lemma eq_but_paths_refl (a : Args) : eq_but_paths a a.
Proof. repeat split. Qed.

Lemma eq_but_paths_sym (a b : Args) : eq_but_paths a b -> eq_but_paths b a.
Proof. unfold eq_but_paths; intuition congruence. Qed.

Lemma eq_but_paths_trans (a b c : Args) :
  eq_but_paths a b -> eq_but_paths b c -> eq_but_paths a c.
Proof. unfold eq_but_paths; intuition congruence. Qed.

Lemma eq_but_paths_eq (a b : Args) :
  eq_but_paths a b -> input_paths a = input_paths b -> a = b.
Proof.
  unfold eq_but_paths. destruct a, b; simpl.
  intros (-> & -> & -> & -> & -> & -> & -> & -> & -> & -> & -> & -> & ->) ->.
  reflexivity.
Qed.

Lemma eq_but_paths_set (a b : Args) (l : list path) :
  eq_but_paths a b -> set_input_paths a l = set_input_paths b l.
Proof.
  intros H. apply eq_but_paths_eq; [|reflexivity].
  unfold eq_but_paths in *; simpl; intuition.
Qed.

(** The loop of the dispatcher, in full: it returns, it logs the
    warnings of the tokens in order, it appends the positional tokens to
    [input_paths] in order, and its other members are those the flags
    alone would give. *)
Lemma ParseArgsRaw_loop_effect (toks : list string) (r r' : Args) :
  eq_but_paths r r' ->
  exists raw raw',
    ParseArgsRaw_loop r toks = (Returned raw, flat_map warning_of toks)
    /\ ParseArgsRaw_loop r' (flags_of toks)
       = (Returned raw', flat_map warning_of (flags_of toks))
    /\ input_paths raw = input_paths r ++ positionals toks
    /\ input_paths raw' = input_paths r'
    /\ eq_but_paths raw raw'.
Proof.
  revert r r'; induction toks as [|arg toks IH]; intros r r' H.
  - exists r, r'. simpl. rewrite app_nil_r.
    exact (conj eq_refl (conj eq_refl (conj eq_refl (conj eq_refl H)))).
  - destruct (ParseArg_dispatch arg) as (f & l & D & Hf).
    pose proof (ParseArg_log r arg) as Hl. rewrite Hf in Hl; simpl in Hl.
    subst l.
    cbn [ParseArgsRaw_loop flat_map]. rewrite Hf, bind_returned.
    unfold flags_of, positionals in *. cbn [filter].
    destruct (recognised arg) eqn:Hr; cbn [negb].
    + destruct (IH (f r) (f r')) as (raw & raw' & H1 & H2 & H3 & H4 & H5);
        [eapply dispatch_eq_but_paths; eauto|].
      exists raw, raw'. cbn [ParseArgsRaw_loop flat_map].
      rewrite Hf, bind_returned, H1, H2. simpl.
      refine (conj eq_refl (conj eq_refl (conj _ (conj _ H5)))).
      * rewrite H3, (dispatch_paths _ _ _ r D). unfold positionals; simpl.
        rewrite Hr; simpl. now rewrite app_nil_r.
      * rewrite H4, (dispatch_paths _ _ _ r' D). unfold positionals; simpl.
        rewrite Hr; simpl. now rewrite app_nil_r.
    + destruct (IH (f r) r') as (raw & raw' & H1 & H2 & H3 & H4 & H5).
      { eapply eq_but_paths_trans; [|exact H].
        apply eq_but_paths_sym.
        eapply dispatch_positional_eq_but_paths; eauto. }
      exists raw, raw'. rewrite H1, H2. simpl.
      refine (conj eq_refl (conj eq_refl (conj _ (conj H4 H5)))).
      rewrite H3, (dispatch_paths _ _ _ r D). unfold positionals; simpl.
      rewrite Hr; simpl. now rewrite <- app_assoc.
Qed.

(** X2. The dispatcher skips [argv[0]] and, of the tokens after it,
    collects in [input_paths] exactly those that are none of the flags,
    in the order given, whatever they look like (a misspelt flag is a
    path); it logs the warnings of the unparseable [--matching-type]
    values, in order, and nothing else, and an empty [argv] gives the
    default record. *)
Theorem dispatcher_collects_positionals (argv : list string) :
  (exists raw,
     ParseArgsRaw argv = (Returned raw, flat_map warning_of (skipn 1 argv))
     /\ input_paths raw = positionals (skipn 1 argv))
  /\ ParseArgsRaw [] = (Returned default_Args, [])
  /\ forall prog prog' toks,
       ParseArgsRaw (prog :: toks) = ParseArgsRaw (prog' :: toks).
Proof.
  split; [|split; reflexivity].
  destruct (ParseArgsRaw_loop_effect (skipn 1 argv) _ _
              (eq_but_paths_refl default_Args))
    as (raw & raw' & H1 & _ & H3 & _).
  exists raw. split; [exact H1 | exact H3].
Qed.

End Collecting.

Section Acceptance.
Context {env : Env}.

Lemma range_rule_passes (o : option Z) (lo hi : Z) :
  (forall v, o = Some v -> (lo <= v <= hi)%Z) ->
  match o with
  | Some v => negb ((lo <=? v)%Z && (v <=? hi)%Z)
  | None => false
  end = false.
Proof.
  intros H. destruct o as [v|]; [|reflexivity].
  specialize (H v eq_refl). apply negb_false_iff, andb_true_iff.
  split; apply Z.leb_le; lia.
Qed.

(** X3. The validator accepts a record exactly when: an [output_path],
    if present, has a supported extension and comes with a non-empty
    [input_paths] and with [run_gui] false; a present [match_threshold]
    is not zero and lies between its configured bounds (so zero is
    refused even where the bounds would allow it); a present [min_shift]
    is neither below its minimum nor above its maximum; present
    [jpeg_quality] and [png_compression] lie between 0 and their maxima;
    and a present [max_pano_mpx] lies between 1 and 5000. Acceptance logs
    nothing, and no other member is looked at. *)
Theorem validator_accepts_exactly (a : Args) :
  ValidateArgs a = (Returned true, []) <->
  (forall out, output_path a = Some out ->
               input_paths a <> [] /\ IsExtensionSupported out = true
               /\ run_gui a = false)
  /\ (forall v, match_threshold a = Some v ->
                v <> 0%Z
                /\ (kMinMatchThreshold <= v <= kMaxMatchThreshold)%Z)
  /\ (forall v, min_shift a = Some v ->
                float_lt v kMinShiftInPano = false
                /\ float_lt kMaxShiftInPano v = false)
  /\ (forall v, jpeg_quality a = Some v -> (0 <= v <= kMaxJpegQuality)%Z)
  /\ (forall v, png_compression a = Some v ->
                (0 <= v <= kMaxPngCompression)%Z)
  /\ (forall v, max_pano_mpx a = Some v -> (1 <= v <= 5000)%Z).
Proof.
  split.
  - intros H.
    assert (Hacc : fst (ValidateArgs a) = Returned true) by now rewrite H.
    destruct (accepted_bounds a Hacc) as (B1 & B2 & B3 & B4 & B5 & B6).
    apply ValidateArgs_accepts in Hacc. unfold validator_rules in Hacc.
    apply Forall_cons_iff in Hacc as [_ Hacc].
    apply Forall_cons_iff in Hacc as [R2 Hacc].
    apply Forall_cons_iff in Hacc as [_ Hacc].
    apply Forall_cons_iff in Hacc as [R4 _].
    cbn [fails] in R2, R4.
    refine (conj _ (conj _ (conj B3 (conj B4 (conj B5 B6))))).
    + intros out Hout. rewrite Hout in R2, B1.
      destruct (B1 eq_refl) as [Hin Hgui].
      apply negb_false_iff in R2. auto.
    + intros v Hv. split; [|now apply B2].
      rewrite Hv in R4. now apply Z.eqb_neq.
  - intros (Hout & Hmt & Hms & Hj & Hp & Hx).
    rewrite ValidateArgs_rules.
    unfold validator_rules, first_failing. cbn [fails diagnostic].
    assert (R1 : has_value (output_path a) && is_empty (input_paths a)
                 = false).
    { destruct (output_path a) as [out|]; [|reflexivity].
      destruct (Hout out eq_refl) as (Hin & _).
      destruct (input_paths a); [congruence | reflexivity]. }
    assert (R2 : match output_path a with
                 | Some out => negb (IsExtensionSupported out)
                 | None => false
                 end = false).
    { destruct (output_path a) as [out|]; [|reflexivity].
      destruct (Hout out eq_refl) as (_ & -> & _). reflexivity. }
    assert (R3 : has_value (output_path a) && run_gui a = false).
    { destruct (output_path a) as [out|]; [|reflexivity].
      destruct (Hout out eq_refl) as (_ & _ & ->). reflexivity. }
    assert (R4 : match match_threshold a with
                 | Some v => (v =? 0)%Z
                 | None => false
                 end = false).
    { destruct (match_threshold a) as [v|]; [|reflexivity].
      apply Z.eqb_neq. now apply Hmt. }
    assert (R6 : match min_shift a with
                 | Some v => float_lt v kMinShiftInPano
                             || float_lt kMaxShiftInPano v
                 | None => false
                 end = false).
    { destruct (min_shift a) as [v|]; [|reflexivity].
      destruct (Hms v eq_refl) as [-> ->]. reflexivity. }
    rewrite R1, R2, R3, R4, R6.
    rewrite (range_rule_passes (match_threshold a) _ _
               (fun v Hv => proj2 (Hmt v Hv))).
    rewrite (range_rule_passes _ _ _ Hj), (range_rule_passes _ _ _ Hp),
      (range_rule_passes _ _ _ Hx).
    reflexivity.
Qed.

End Acceptance.

Section ExpanderComposition.
Context {env : Env} {fs : FileSystem}.

Lemma bind_assoc {A B C : Type} (m : M A) (f : A -> M B) (g : B -> M C) :
  bind (bind m f) g = bind m (fun x => bind (f x) g).
Proof.
  unfold bind. destruct m as [[a|e] l]; [|reflexivity].
  destruct (f a) as [[b|e] l1]; [|reflexivity].
  destruct (g b) as [r l2]. now rewrite app_assoc.
Qed.

(** The value a computation continues with when it returned, and what is
    left of it when it threw. *)
Lemma bind_cases {A B : Type} (m : M A) (k : A -> M B) :
  bind m k = match m with
             | (Returned a, l) => (fst (k a), l ++ snd (k a))
             | (Thrown e, l) => (Thrown e, l)
             end.
Proof. destruct m as [[a|e] l]; [apply bind_returned | reflexivity]. Qed.

Lemma push_regular_files_acc (entries : list directory_entry)
  (result : list path) :
  push_regular_files entries result
  = match push_regular_files entries [] with
    | (Returned x, l) => (Returned (result ++ x), l)
    | (Thrown e, l) => (Thrown e, l)
    end.
Proof.
  revert result.
  assert (G : forall result extra,
             push_regular_files entries (result ++ extra)
             = match push_regular_files entries extra with
               | (Returned x, l) => (Returned (result ++ x), l)
               | (Thrown e, l) => (Thrown e, l)
               end).
  { induction entries as [|entry rest IH]; intros result extra;
      cbn [push_regular_files]; [reflexivity|].
    destruct (is_regular_file entry) as [b|e];
      rewrite ?bind_eval_returned, ?bind_eval_thrown; [|reflexivity].
    destruct b; [rewrite <- app_assoc|]; apply IH. }
  intros result. rewrite <- (app_nil_r result) at 1. apply G.
Qed.

Lemma ExpandDirectories_loop_acc (paths : list path) (result : list path) :
  ExpandDirectories_loop paths result
  = match ExpandDirectories paths with
    | (Returned x, l) => (Returned (result ++ x), l)
    | (Thrown e, l) => (Thrown e, l)
    end.
Proof.
  unfold ExpandDirectories.
  assert (G : forall result extra,
             ExpandDirectories_loop paths (result ++ extra)
             = match ExpandDirectories_loop paths extra with
               | (Returned x, l) => (Returned (result ++ x), l)
               | (Thrown e, l) => (Thrown e, l)
               end).
  { induction paths as [|p rest IH]; intros res extra;
      cbn [ExpandDirectories_loop]; [reflexivity|].
    destruct (is_directory p) as [[|]|e];
      rewrite ?bind_eval_returned, ?bind_eval_thrown; try reflexivity.
    - rewrite !bind_spdlog.
      destruct (directory_iterator p) as [entries|e];
        rewrite ?bind_eval_returned, ?bind_eval_thrown; [|reflexivity].
      rewrite (push_regular_files_acc entries (res ++ extra)),
        (push_regular_files_acc entries extra).
      destruct (push_regular_files entries []) as [[x|e] l];
        [|reflexivity].
      rewrite !bind_returned, <- app_assoc, IH.
      destruct (ExpandDirectories_loop rest (extra ++ x)) as [[y|e] l'];
        reflexivity.
    - rewrite <- app_assoc. apply IH. }
  rewrite <- (app_nil_r result) at 1. apply G.
Qed.

Lemma ExpandDirectories_loop_app (a b : list path) (result : list path) :
  ExpandDirectories_loop (a ++ b) result
  = bind (ExpandDirectories_loop a result)
         (fun r => ExpandDirectories_loop b r).
Proof.
  revert result; induction a as [|p a IH]; intros result;
    cbn [app ExpandDirectories_loop].
  - unfold ret. rewrite bind_returned. now destruct (ExpandDirectories_loop b result).
  - destruct (is_directory p) as [[|]|e];
      rewrite ?bind_eval_returned, ?bind_eval_thrown; try reflexivity;
      [|apply IH].
    unfold spdlog, eval.
    destruct (directory_iterator p) as [entries|e]; [|reflexivity].
    unfold bind.
    destruct (push_regular_files entries result) as [[r1|e] l1];
      [|reflexivity].
    rewrite IH. unfold bind.
    destruct (ExpandDirectories_loop a r1) as [[r2|e] l2]; [|reflexivity].
    destruct (ExpandDirectories_loop b r2) as [r3 l3]; simpl.
    now rewrite <- !app_assoc.
Qed.

(** The expansion of two sequences put end to end. *)
Lemma ExpandDirectories_app (a b : list path) :
  ExpandDirectories (a ++ b)
  = match ExpandDirectories a with
    | (Returned xa, la) =>
        match ExpandDirectories b with
        | (Returned xb, lb) => (Returned (xa ++ xb), la ++ lb)
        | (Thrown e, lb) => (Thrown e, la ++ lb)
        end
    | (Thrown e, la) => (Thrown e, la)
    end.
Proof.
  unfold ExpandDirectories at 1. rewrite ExpandDirectories_loop_app.
  fold (ExpandDirectories a). rewrite bind_cases.
  destruct (ExpandDirectories a) as [[xa|e] la]; [|reflexivity].
  rewrite ExpandDirectories_loop_acc.
  destruct (ExpandDirectories b) as [[xb|e] lb]; reflexivity.
Qed.

(** X4. The expander works through the paths from left to right and its
    results compose: the expansion of [a ++ b] is that of [a] followed by
    that of [b], with the lines of [a] logged before those of [b]; when
    the expansion of [a] throws, that exception is the outcome for
    [a ++ b], only the lines logged before it are present and [b] is not
    looked at. The expansion of no path at all is empty and silent. *)
Theorem expansion_composes (a b : list path) :
  ExpandDirectories (a ++ b)
  = match ExpandDirectories a with
    | (Returned xa, la) =>
        match ExpandDirectories b with
        | (Returned xb, lb) => (Returned (xa ++ xb), la ++ lb)
        | (Thrown e, lb) => (Thrown e, la ++ lb)
        end
    | (Thrown e, la) => (Thrown e, la)
    end
  /\ ExpandDirectories [] = (Returned [], []).
Proof.
  split.
  - apply ExpandDirectories_app.
  - reflexivity.
Qed.

End ExpanderComposition.

Section ExpanderErrors.
Context {env : Env} {fs : FileSystem}.

Lemma push_regular_files_error (entries : list directory_entry)
  (result : list path) (e : exception) :
  entries_error entries = Some e ->
  push_regular_files entries result = (Thrown e, []).
Proof.
  revert result; induction entries as [|entry rest IH]; intros result;
    cbn [entries_error push_regular_files]; [discriminate|].
  destruct (is_regular_file entry) as [b|x];
    rewrite ?bind_eval_returned, ?bind_eval_thrown.
  - intros H. now apply IH.
  - now intros [= ->].
Qed.

Lemma entries_error_none (entries : list directory_entry) :
  entries_error entries = None <-> Forall entry_readable entries.
Proof.
  induction entries as [|entry rest IH]; cbn [entries_error].
  - split; [constructor | reflexivity].
  - destruct (is_regular_file entry) as [b|x] eqn:Hb.
    + rewrite IH. split; intros H.
      * constructor; [now exists b | exact H].
      * now inversion H.
    + split; [discriminate|]. intros H; inversion H as [|? ? [b Hr] ?].
      congruence.
Qed.

Lemma path_error_none (p : path) : path_error p = None <-> readable p.
Proof.
  unfold path_error, readable.
  destruct (is_directory p) as [[|]|e].
  - destruct (directory_iterator p) as [entries|e].
    + destruct (entries_error entries) as [e|] eqn:He.
      * split; [discriminate|].
        intros [H|(_ & es & [= <-] & Hr)]; [discriminate|].
        apply entries_error_none in Hr. congruence.
      * split; [|reflexivity]. intros _. right. split; [reflexivity|].
        exists entries. split; [reflexivity|]. now apply entries_error_none.
    + split; [discriminate|].
      intros [H|(_ & es & H & _)]; discriminate.
  - split; [now left | reflexivity].
  - split; [discriminate|]. intros [H|(H & _)]; discriminate.
Qed.

Lemma ExpandDirectories_single_error (p : path) (e : exception)
  (lg : list log_line) :
  path_error p = Some (e, lg) ->
  ExpandDirectories [p] = (Thrown e, lg).
Proof.
  unfold path_error, ExpandDirectories; cbn [ExpandDirectories_loop].
  destruct (is_directory p) as [[|]|x];
    rewrite ?bind_eval_returned, ?bind_eval_thrown.
  - rewrite bind_spdlog.
    destruct (directory_iterator p) as [entries|x];
      rewrite ?bind_eval_returned, ?bind_eval_thrown.
    + destruct (entries_error entries) as [x|] eqn:He; [|discriminate].
      intros [= <- <-].
      now rewrite (push_regular_files_error entries [] x He).
    + now intros [= <- <-].
  - discriminate.
  - now intros [= <- <-].
Qed.

(** X5. The first path whose inspection throws decides the outcome of
    the expander: when the paths before it can all be read, the
    exception of that path leaves [ExpandDirectories], with the
    informational lines of the directories expanded so far (that of the
    failing directory included when its enumeration is what failed), and
    whatever follows the path plays no part. The expander returns exactly
    when every path can be read. *)
Theorem first_error_leaves_expander (before after : list path) (p : path)
  (e : exception) (lg : list log_line) :
  Forall readable before ->
  path_error p = Some (e, lg) ->
  ExpandDirectories (before ++ p :: after)
  = (Thrown e, map expanding_line (filter is_directory_true before) ++ lg)
  /\ (forall paths,
        (exists x l, ExpandDirectories paths = (Returned x, l))
        <-> Forall readable paths).
Proof.
  intros Hb Hp. split.
  - change (p :: after) with ([p] ++ after).
    rewrite ExpandDirectories_app.
    unfold ExpandDirectories at 1.
    rewrite (ExpandDirectories_loop_readable [] Hb).
    rewrite ExpandDirectories_app, (ExpandDirectories_single_error p e lg Hp).
    reflexivity.
  - intros paths. split.
    + induction paths as [|q rest IH]; intros (x & l & H); [constructor|].
      change (q :: rest) with ([q] ++ rest) in H.
      rewrite ExpandDirectories_app in H.
      destruct (path_error q) as [[x' l']|] eqn:Hq.
      * rewrite (ExpandDirectories_single_error q x' l' Hq) in H.
        discriminate.
      * constructor; [now apply path_error_none|]. apply IH.
        destruct (ExpandDirectories [q]) as [[xq|?] lq]; [|discriminate].
        destruct (ExpandDirectories rest) as [[xr|?] lr]; [|discriminate].
        now eexists _, _.
    + intros H. unfold ExpandDirectories.
      rewrite (ExpandDirectories_loop_readable [] H). now eexists _, _.
Qed.

End ExpanderErrors.

Lemma first_error_leaves_expander_witness :
  @ExpandDirectories sample_env sample_fs ["photos"; "locked"; "z.jpg"]
  = (Thrown (std_exception "filesystem error: cannot open directory"),
     [expanding_line "photos"; expanding_line "locked"]).
Proof.
  refine (proj1 (@first_error_leaves_expander sample_env sample_fs
                   ["photos"] ["z.jpg"] "locked"
                   (std_exception "filesystem error: cannot open directory")
                   [expanding_line "locked"] _ _)).
  - constructor; [right | constructor].
    split; [reflexivity|]. eexists; split; [reflexivity|].
    repeat (constructor; [eexists; reflexivity|]). constructor.
  - reflexivity.
Defined.

Section PositionalPaths.
Context {env : Env} {fs : FileSystem}.

Lemma unrecognised_no_warning (tok : string) :
  recognised tok = false -> warning_of tok = [].
Proof.
  intros H. unfold warning_of.
  destruct (starts_with tok kMatchingTypeFlag) eqn:Hm; [|reflexivity].
  rewrite (starts_with_recognised tok kMatchingTypeFlag) in H;
    [discriminate | cbn [In]; auto 12 | exact Hm].
Qed.

(** The record of the dispatcher for a command line, next to the record
    its flags alone give. *)
Lemma ParseArgsRaw_flags (prog : string) (toks : list string) :
  exists raw rawf,
    ParseArgsRaw (prog :: toks) = (Returned raw, flat_map warning_of toks)
    /\ ParseArgsRaw_loop default_Args (flags_of toks)
       = (Returned rawf, flat_map warning_of (flags_of toks))
    /\ input_paths raw = positionals toks
    /\ eq_but_paths raw rawf.
Proof.
  destruct (ParseArgsRaw_loop_effect toks _ _ (eq_but_paths_refl default_Args))
    as (raw & rawf & H1 & H2 & H3 & _ & H5).
  exists raw, rawf. rewrite ParseArgsRaw_cons. auto.
Qed.

Lemma ParseArgsRaw_same_flags (prog : string) (toks toks' : list string)
  (raw raw' : Args) (l l' : list log_line) :
  flags_of toks = flags_of toks' ->
  ParseArgsRaw (prog :: toks) = (Returned raw, l) ->
  ParseArgsRaw (prog :: toks') = (Returned raw', l') ->
  eq_but_paths raw raw'
  /\ input_paths raw = positionals toks
  /\ input_paths raw' = positionals toks'.
Proof.
  intros Hf H H'.
  destruct (ParseArgsRaw_flags prog toks) as (r1 & f1 & E1 & F1 & P1 & Q1).
  destruct (ParseArgsRaw_flags prog toks') as (r2 & f2 & E2 & F2 & P2 & Q2).
  rewrite E1 in H; rewrite E2 in H'. inversion H; inversion H'; subst.
  rewrite Hf in F1. rewrite F1 in F2. inversion F2; subst.
  repeat split; auto.
  all: try (eapply eq_but_paths_trans;
            [exact Q1 | apply eq_but_paths_sym; exact Q2]).
Qed.

Lemma ExpandDirectories_not_directory (tok : string) :
  is_directory tok = Returned false ->
  ExpandDirectories (@cons string tok (@nil string))
  = (Returned (@cons string tok (@nil string)), []).
Proof.
  intros H. unfold ExpandDirectories; cbn [ExpandDirectories_loop].
  now rewrite H, bind_eval_returned.
Qed.

(** X6. A token that is no flag, names no directory and has no supported
    extension (a misspelt flag, for one) is dropped without a word when
    other inputs are there: if the command line without it is accepted
    with at least one input path, the command line with it gives the same
    record and the same log. If the command line without it is accepted
    with no input path, the token is the one input and the parse fails
    with [No supported images provided!]. *)
Theorem unsupported_positional_ignored (prog : string)
  (pre post : list string) (tok : string) (r : Args) (l : list log_line) :
  recognised tok = false ->
  is_directory tok = Returned false ->
  IsExtensionSupported tok = false ->
  ParseArgs (prog :: pre ++ post) = (Returned (Some r), l) ->
  (input_paths r <> [] ->
   ParseArgs (prog :: pre ++ tok :: post) = (Returned (Some r), l))
  /\ (input_paths r = [] ->
      ParseArgs (prog :: pre ++ tok :: post)
      = (Returned None,
         l ++ [error_line "No supported images provided!" []])).
Proof.
  intros Hrec Hdir Hext Hrun.
  destruct (ParseArgs_success _ Hrun)
    as (rawb & lrawb & xb & lb & Hrawb & Hexb & Hkb & Hr & Hv & Hl).
  destruct (ParseArgsRaw_flags prog (pre ++ tok :: post))
    as (rawa & rawf & Hrawa & _ & Hpa & _).
  assert (Hflags : flags_of (pre ++ post) = flags_of (pre ++ tok :: post)).
  { unfold flags_of. rewrite !filter_app. cbn [filter]. now rewrite Hrec. }
  destruct (ParseArgsRaw_same_flags prog _ _ _ _ _ _ Hflags Hrawb Hrawa)
    as (Heq & Hpb & _).
  assert (Hlog : flat_map warning_of (pre ++ tok :: post) = lrawb).
  { destruct (ParseArgsRaw_flags prog (pre ++ post)) as (r1 & _ & E1 & _).
    rewrite E1 in Hrawb. inversion Hrawb; subst.
    rewrite !flat_map_app. cbn [flat_map].
    now rewrite (unrecognised_no_warning tok Hrec). }
  rewrite Hlog in Hrawa.
  assert (Hposa : positionals (pre ++ tok :: post)
                  = positionals pre ++ [tok] ++ positionals post).
  { unfold positionals. rewrite filter_app. cbn [filter].
    now rewrite Hrec. }
  assert (Hposb : positionals (pre ++ post)
                  = positionals pre ++ positionals post)
    by apply filter_app.
  rewrite Hpb, Hposb, ExpandDirectories_app in Hexb.
  rewrite Hposa in Hpa.
  destruct (ExpandDirectories (positionals pre)) as [[x1|?] l1] eqn:H1;
    [|discriminate].
  destruct (ExpandDirectories (positionals post)) as [[x2|?] l2] eqn:H2;
    [|discriminate].
  inversion Hexb; subst xb lb. clear Hexb.
  assert (Hexa : ExpandDirectories (input_paths rawa)
                 = (Returned (x1 ++ tok :: x2), l1 ++ l2)).
  { rewrite Hpa, ExpandDirectories_app, H1, ExpandDirectories_app.
    now rewrite (ExpandDirectories_not_directory tok Hdir), H2. }
  assert (Hkeep : KeepSupported (x1 ++ tok :: x2) = KeepSupported (x1 ++ x2)).
  { unfold KeepSupported. rewrite !filter_app. cbn [filter].
    now rewrite Hext. }
  rewrite (ParseArgs_after _ Hrawa).
  split.
  - intros Hne.
    assert (Hk : KeepSupported (x1 ++ tok :: x2) <> []
                 \/ x1 ++ tok :: x2 = []).
    { left. rewrite Hkeep. intros Hnil. apply Hne.
      rewrite Hr. cbn [input_paths set_input_paths]. now rewrite Hnil. }
    rewrite (after_dispatch_validated rawa Hexa Hk (valid := true) (lv := []));
      [|now rewrite Hkeep, <- (eq_but_paths_set rawb rawa _ Heq), <- Hr].
    rewrite Hkeep, <- (eq_but_paths_set rawb rawa _ Heq), <- Hr, Hl.
    now rewrite app_nil_r.
  - intros Hnil.
    assert (Hknil : KeepSupported (x1 ++ x2) = []).
    { apply std_sort_nil. rewrite Hr in Hnil. exact Hnil. }
    rewrite (after_dispatch_unsupported rawa Hexa);
      [| now destruct x1 | now rewrite Hkeep].
    now rewrite Hl, <- !app_assoc.
Qed.

End PositionalPaths.

Lemma unsupported_positional_ignored_witness :
  @ParseArgs sample_env sample_fs
    ["xpano"; "a.jpg"; "--jpg-quality=90"; "--gui"]
  = (Returned (Some (set_run_gui (set_input_paths default_Args ["a.jpg"])
                       true)), []).
Proof.
  refine (proj1 (@unsupported_positional_ignored sample_env sample_fs
                   "xpano" ["a.jpg"] ["--gui"] "--jpg-quality=90"
                   _ _ _ _ _ _) _);
    [reflexivity | reflexivity | reflexivity | reflexivity | discriminate].
Defined.

Section OrderOfPaths.
Context {env : Env} {fs : FileSystem}.



Hypothesis path_lt_asym :
  forall a b, path_lt a b = true -> path_lt b a = false.
Hypothesis path_lt_trans :
  forall a b c, path_lt a b = true -> path_lt b c = true -> path_lt a c = true.
Hypothesis path_lt_total :
  forall a b, path_lt a b = false -> path_lt b a = false -> a = b.



End OrderOfPaths.


Section LogDiscipline.
Context {env : Env} {fs : FileSystem}.

Lemma ExpandDirectories_logs_no_error (paths : list path) :
  errors_logged (snd (ExpandDirectories paths)) = [].
Proof. apply ExpandDirectories_loop_logs_no_error. Qed.

(** X8. What [ParseArgs] writes to the error channel tells how it ended:
    a returned record comes with no error line at all, a returned failure
    with exactly one, which is either [No supported images provided!] or
    the diagnostic of a validator rule, and an escaping exception with
    none. *)
Theorem errors_logged_tell_outcome (argv : list string) :
  match ParseArgs argv with
  | (Returned (Some _), l) => errors_logged l = []
  | (Returned None, l) =>
      exists line,
        errors_logged l = [line]
        /\ (line = error_line "No supported images provided!" []
            \/ exists q a, In q validator_rules /\ line = diagnostic q a)
  | (Thrown _, l) => errors_logged l = []
  end.
Proof.
  destruct (ParseArgsRaw_returns argv) as (raw & lraw & Hraw).
  rewrite (ParseArgs_after _ Hraw).
  pose proof (ParseArgsRaw_loop_logs_no_error _ _ Hraw) as Hlr.
  pose proof (ExpandDirectories_logs_no_error (input_paths raw)) as Hle.
  destruct (after_dispatch_cases raw)
    as [(e & le & He & ->)
       |[(ex & le & He & Hne & Hk & ->)
        |(ex & le & valid & lv & He & Hk & Hv & ->)]];
    rewrite He in Hle; cbn [fst snd] in *.
  - now rewrite errors_logged_app, Hlr, Hle.
  - exists (error_line "No supported images provided!" []).
    rewrite !errors_logged_app, Hlr, Hle. split; [reflexivity | now left].
  - rewrite ValidateArgs_rules in Hv.
    destruct (first_failing_cases validator_rules
                (set_input_paths raw (std_sort (KeepSupported ex))))
      as [[_ Hf]|(earlier & q & later & Hs & _ & _ & Hf)];
      rewrite Hf in Hv; inversion Hv; subst.
    + now rewrite !errors_logged_app, Hlr, Hle.
    + exists (diagnostic q
                (set_input_paths raw (std_sort (KeepSupported ex)))).
      assert (Hin : In q validator_rules)
        by (rewrite Hs; apply in_or_app; right; now left).
      rewrite !errors_logged_app, Hlr, Hle. cbn [app errors_logged filter].
      rewrite validator_rules_log_errors by exact Hin.
      split; [reflexivity|]. right.
      exists q, (set_input_paths raw (std_sort (KeepSupported ex))).
      now split.
Qed.

End LogDiscipline.

Section Help.
Context {env : Env} {help : HelpEnv}.

Lemma in_by_eqb (s : string) (l : list string) :
  existsb (String.eqb s) l = true -> In s l.
Proof.
  intros H. apply existsb_exists in H as (x & Hx & He).
  apply String.eqb_eq in He. now subst.
Qed.

Lemma starts_with_refl (s : string) : starts_with s s = true.
Proof. unfold starts_with. induction s as [|c s IH]; simpl; [reflexivity|].
  destruct (ascii_dec c c); [exact IH | congruence]. Qed.

(** X9. The usage text and the dispatcher agree on the flags: every word
    of the text that starts with two dashes is a token the dispatcher
    takes for a flag, and every flag the dispatcher knows (which are the
    only tokens it does not take for a path) heads some word of the
    text. Every literal an enum resolver accepts is a word of the text.
    [PrintHelp] returns, and writes to the informational channel only. *)
Theorem help_documents_dispatcher :
  (forall w, In w help_words -> starts_with w "--" = true ->
             recognised w = true)
  /\ (forall k, In k dispatcher_flags ->
                exists w, In w help_words /\ starts_with w k = true)
  /\ (forall arg, recognised arg = true ->
                  exists k, In k dispatcher_flags /\ starts_with arg k = true)
  /\ (forall t, In (projection_literal t) help_words)
  /\ (forall t, In (wave_correction_literal t) help_words)
  /\ (forall t, In (matching_type_literal t) help_words)
  /\ fst PrintHelp = Returned tt
  /\ Forall (fun line => lvl line = info) (snd PrintHelp).
Proof.
  split; [|split; [|split; [|split; [|split; [|split; [|split]]]]]].
  - assert (H : forallb (fun w => implb (starts_with w "--") (recognised w))
                  help_words = true) by (vm_compute; reflexivity).
    intros w Hw Hd. rewrite forallb_forall in H. specialize (H w Hw).
    now rewrite Hd in H.
  - assert (H : forallb (fun k => existsb (fun w => starts_with w k)
                                    help_words)
                  dispatcher_flags = true) by (vm_compute; reflexivity).
    intros k Hk. rewrite forallb_forall in H. specialize (H k Hk).
    now apply existsb_exists in H.
  - unfold recognised, dispatcher_flags. intros arg H.
    repeat (apply orb_true_iff in H as [H|H]);
      try (apply String.eqb_eq in H; subst arg;
           eexists; split; [|apply starts_with_refl]; cbn [In]; auto 20);
      (eexists; split; [|exact H]; cbn [In]; auto 20).
  - intros t; apply in_by_eqb; destruct t; vm_compute; reflexivity.
  - intros t; apply in_by_eqb; destruct t; vm_compute; reflexivity.
  - intros t; apply in_by_eqb; destruct t; vm_compute; reflexivity.
  - reflexivity.
  - unfold PrintHelp, bind, spdlog; simpl. repeat constructor.
Qed.

End Help.

Section ExactFlags.
Context {env : Env}.


End ExactFlags.
